(** * rm_block.py: removal of the duplicated KPI block

    A shallow embedding of the maintenance script [src/rm_block.py] and the
    properties of its text splice.

    The script reads one text file, collects every position of a fixed marker,
    and, when the marker occurs more than once, cuts the lines from the one
    holding the last marker through the one holding the next closing tag.

    Modelling choices.
    - A Python [str] is a sequence of Unicode code points: [str := list N].
    - Positions are Python ints, hence [Z]; [str.find] and [str.rfind] return
      [-1] when nothing is found, and the script relies on [-1 + 1 = 0].
    - [main] is the script on the text of the file: [file] is the text that
      [read_text] returns, after decoding and newline translation, and
      [write_text] replaces it by the text it is given.  The bytes of the
      file, UTF-8, the newline translation of text mode and the failures of
      reading are in [Disk], where [script] is the run on a real file.
    - Effects (the file, standard output, [SystemExit]) are threaded through a
      small state-and-exception monad; the order of prints and writes is kept
      in a trace. *)

From Equations Require Import Equations.
From Stdlib Require Import String Ascii List ZArith Lia Bool.
From Stdlib Require Strings.Byte.
Import ListNotations.

Local Open Scope Z_scope.

(** ** Python strings *)

Module PyStr.

Definition char := N.
Definition str := list char.

Definition len (s : str) : Z := Z.of_nat (length s).

(** A string literal, as code points. *)
Definition lit (s : string) : str := map N_of_ascii (list_ascii_of_string s).

(** [starts_with sub t]: [t[0:len(sub)] == sub]. *)
Fixpoint starts_with (sub t : str) : bool :=
  match sub, t with
  | [], _ => true
  | _ :: _, [] => false
  | a :: sub', b :: t' => N.eqb a b && starts_with sub' t'
  end.

(** Index normalisation of slices and of the search bounds: a negative index
    counts from the end and is clamped at [0]. *)
Definition adjust (n i : Z) : Z :=
  if i <? 0 then Z.max 0 (i + n) else i.

Definition adjust_end (n e : Z) : Z :=
  if e >? n then n else adjust n e.

(** Leftmost match in [t], where [t] is the part of the text that starts at
    offset [pos]. *)
Fixpoint find_at (sub t : str) (pos : nat) : option nat :=
  if starts_with sub t then Some pos
  else match t with
       | [] => None
       | _ :: t' => find_at sub t' (S pos)
       end.

(** Rightmost match in [t], where [t] starts at offset [pos]. *)
Fixpoint rfind_at (sub t : str) (pos : nat) : option nat :=
  match t with
  | [] => if starts_with sub [] then Some pos else None
  | _ :: t' =>
      match rfind_at sub t' (S pos) with
      | Some i => Some i
      | None => if starts_with sub t then Some pos else None
      end
  end.

Definition index_or_minus1 (o : option nat) : Z :=
  match o with
  | Some i => Z.of_nat i
  | None => -1
  end.

(** [text.find(sub, start)] *)
Definition find (text sub : str) (start : Z) : Z :=
  let n := len text in
  let s := adjust n start in
  if n - s <? len sub then -1
  else index_or_minus1 (find_at sub (skipn (Z.to_nat s) text) (Z.to_nat s)).

(** [text.rfind(sub, start, end)] *)
Definition rfind (text sub : str) (start end_ : Z) : Z :=
  let n := len text in
  let e := adjust_end n end_ in
  let s := adjust n start in
  if e - s <? len sub then -1
  else index_or_minus1
         (rfind_at sub (firstn (Z.to_nat (e - s)) (skipn (Z.to_nat s) text))
            (Z.to_nat s)).

(** [text[:k]] and [text[k:]] *)
Definition slice_to (text : str) (k : Z) : str :=
  firstn (Z.to_nat (adjust (len text) k)) text.

Definition slice_from (text : str) (k : Z) : str :=
  skipn (Z.to_nat (adjust (len text) k)) text.

End PyStr.

Import PyStr.

(** ** The fixed strings of the script *)

Definition quote : char := 34%N.
Definition newline : char := 10%N.

(** [sub = 'id="kpi-pocket-coverage"'] *)
Definition sub : str :=
  lit "id=" ++ [quote] ++ lit "kpi-pocket-coverage" ++ [quote].

(** ['</Section>'] *)
Definition closing_tag : str := lit "</Section>".

(** ** Effects: the file, standard output and exceptions *)

(** The exceptions of the script's own statements, after the read.  Those of
    the I/O calls are [Disk.pyexn]. *)
Inductive exn : Type :=
| SystemExit (msg : string)
| IndexError.

Inductive value : Type :=
| VStr (s : string)
| VInt (z : Z)
| VList (l : list Z).

Inductive event : Type :=
| Printed (args : list value)
| Wrote (data : str).

Record world : Type := mkWorld {
  file : str;
  trace : list event
}.

Inductive res (A : Type) : Type :=
| Ret (a : A) (w : world)
| Raise (e : exn) (w : world).
Arguments Ret {A} a w.
Arguments Raise {A} e w.

Definition M (A : Type) : Type := world -> res A.

Definition ret {A} (a : A) : M A := fun w => Ret a w.

Definition bind {A B} (c : M A) (k : A -> M B) : M B :=
  fun w => match c w with
           | Ret a w' => k a w'
           | Raise e w' => Raise e w'
           end.

Definition raise {A} (e : exn) : M A := fun w => Raise e w.

Notation "x <- c ;; k" := (bind c (fun x => k))
  (at level 61, c at next level, right associativity).
Notation "c ;; k" := (bind c (fun _ => k))
  (at level 61, right associativity).

(** [text_path.read_text(encoding='utf-8')], once the file has been opened
    and decoded: the text it returns.  [Disk.Path_read_text] is the call on
    the bytes of the file. *)
Definition read_text : M str := fun w => Ret (file w) w.

(** [text_path.write_text(data, encoding='utf-8')]: the text of the file
    becomes [data].  [Disk.Path_write_text] is the call on the bytes of the
    file. *)
Definition write_text (data : str) : M unit :=
  fun w => Ret tt (mkWorld data (trace w ++ [Wrote data])).

(** [print(...)] *)
Definition print (args : list value) : M unit :=
  fun w => Ret tt (mkWorld (file w) (trace w ++ [Printed args])).

(** [l[i]] on a Python list *)
Definition getitem (l : list Z) (i : Z) : M Z :=
  let n := Z.of_nat (length l) in
  let j := if i <? 0 then i + n else i in
  if (j <? 0) || (n <=? j) then raise IndexError
  else match nth_error l (Z.to_nat j) with
       | Some x => ret x
       | None => raise IndexError
       end.

(** ** The scanning loop *)

Definition inspect {A} (a : A) : {b : A | a = b} := exist _ a eq_refl.

(** A found position is never left of the search start and lies in the text. *)
Lemma find_at_bounds (s t : str) (pos i : nat) :
  find_at s t pos = Some i -> (pos <= i <= pos + length t)%nat.
Proof.
  revert pos. induction t as [|c t IH]; intros pos; simpl.
  - destruct (starts_with s []); [|discriminate].
    intros [= <-]. lia.
  - destruct (starts_with s (c :: t)).
    + intros [= <-]. lia.
    + intros H. apply IH in H. lia.
Qed.

Lemma find_bounds (text s : str) (start i : Z) :
  find text s start = i -> i <> -1 -> start <= i /\ 0 <= i <= len text.
Proof.
  unfold find, adjust, len. intros H Hi.
  destruct (_ - _ <? _) eqn:Hroom; [congruence|].
  apply Z.ltb_ge in Hroom.
  destruct (find_at _ _ _) as [k|] eqn:E; simpl in H; [|congruence].
  subst i. apply find_at_bounds in E. rewrite length_skipn in E.
  destruct (start <? 0) eqn:Hs;
    [apply Z.ltb_lt in Hs | apply Z.ltb_ge in Hs]; lia.
Qed.

(** One round of the [while True] loop on its two variables. *)
Inductive round : Type :=
| Continue (indices : list Z) (start : Z)
| Break (indices : list Z).

Definition loop_body (text s : str) (indices : list Z) (start : Z) : round :=
  let i := find text s start in
  if i =? -1 then Break indices
  else Continue (indices ++ [i]) (i + 1).

(** What is left of the search range; it shrinks at every round that
    continues. *)
Definition remaining (text : str) (start : Z) : nat :=
  Z.to_nat (len text + 1 - start).

Lemma loop_body_continue (text s : str) (indices indices' : list Z)
    (start start' : Z) :
  loop_body text s indices start = Continue indices' start' ->
  start < start' <= len text + 1.
Proof.
  unfold loop_body. destruct (_ =? _) eqn:E; [discriminate|].
  apply Z.eqb_neq in E. intros [= _ <-].
  destruct (find_bounds text s start _ eq_refl E). lia.
Qed.

(** The [while True] loop of the script. *)
Equations? scan (text s : str) (indices : list Z) (start : Z) : list Z
  by wf (remaining text start) lt :=
scan text s indices start with inspect (loop_body text s indices start) := {
  | exist _ (Break r) _ := r
  | exist _ (Continue indices' start') H := scan text s indices' start' }.
Proof.
  apply loop_body_continue in H. unfold remaining. lia.
Qed.

(** ** The script *)

Definition main : M unit :=
  text <- read_text ;;
  let indices := scan text sub [] 0 in
  print [VStr "indices"; VList indices] ;;
  if Z.of_nat (length indices) <=? 1 then
    raise (SystemExit "nothing to remove")
  else
    remove_start <- getitem indices (-1) ;;
    let end_ := find text closing_tag remove_start in
    if end_ =? -1 then
      raise (SystemExit "end not found")
    else
      let end_ := find text [newline] end_ in
      let end_ := if end_ =? -1 then len text else end_ in
      let line_start := rfind text [newline] 0 remove_start + 1 in
      let new_text := slice_to text line_start ++ slice_from text end_ in
      write_text new_text ;;
      print [VStr "removed block from"; VInt line_start;
             VStr "to"; VInt end_].

(** The run on a file holding [text], with nothing printed yet. *)
Definition run (text : str) : res unit := main (mkWorld text []).

(** ** Specification vocabulary

    The notions the properties are stated with.  They are defined on the text
    alone, without the search functions of the script. *)

(** [s] occurs in [text] at position [i]: [text[i:i+len(s)] == s]. *)
Definition occurs_at (s text : str) (i : nat) : Prop :=
  (i + length s <= length text)%nat /\ firstn (length s) (skipn i text) = s.

Definition occurs_atb (s text : str) (i : nat) : bool :=
  (i <=? length text)%nat && starts_with s (skipn i text).

(** All positions at which [s] occurs, from left to right. *)
Definition occurrences (s text : str) : list nat :=
  filter (occurs_atb s text) (seq 0 (S (length text))).

Definition count (s text : str) : nat := length (occurrences s text).

Definition last_occurrence (s text : str) : option nat :=
  hd_error (rev (occurrences s text)).

(** The first occurrence at or after position [p]. *)
Definition next_occurrence (s text : str) (p : nat) : option nat :=
  hd_error (filter (fun k => (p <=? k)%nat) (occurrences s text)).

(** [ls] is where the line holding position [p] starts. *)
Definition is_line_start (text : str) (p ls : nat) : Prop :=
  (ls <= p)%nat /\
  (ls = 0%nat \/ nth_error text (ls - 1) = Some newline) /\
  forall j, (ls <= j < p)%nat -> nth_error text j <> Some newline.

(** [e] is where the line holding position [c] ends: at its newline, or at
    the end of the text. *)
Definition is_line_end (text : str) (c e : nat) : Prop :=
  (c <= e <= length text)%nat /\
  (e = length text \/ nth_error text e = Some newline) /\
  forall j, (c <= j < e)%nat -> nth_error text j <> Some newline.

(** The text without the positions [a <= i < b]. *)
Definition remove_span (text : str) (a b : nat) : str :=
  firstn a text ++ skipn b text.

(** Strictly increasing lists of positions. *)
Fixpoint increasing (l : list Z) : Prop :=
  match l with
  | [] => True
  | x :: l' => match l' with
               | [] => True
               | y :: _ => x < y
               end /\ increasing l'
  end.

(** The loop, round by round, with a bound on the number of rounds. *)
Fixpoint rounds (fuel : nat) (text s : str) (indices : list Z) (start : Z)
  : option (list Z) :=
  match fuel with
  | O => None
  | S fuel' =>
      match loop_body text s indices start with
      | Break r => Some r
      | Continue indices' start' => rounds fuel' text s indices' start'
      end
  end.

(** The occurrences at or after position [p]. *)
Definition occ_from (s text : str) (p : nat) : list nat :=
  filter (occurs_atb s text) (seq p (S (length text) - p)).

(** [line_start] and the second [end] of the script, as functions of the
    positions they are computed from. *)
Definition line_start_of (text : str) (remove_start : Z) : Z :=
  rfind text [newline] 0 remove_start + 1.

Definition line_end_of (text : str) (end_ : Z) : Z :=
  let e := find text [newline] end_ in
  if e =? -1 then len text else e.

(** The world after the scan and its print. *)
Definition after_scan (w : world) : world :=
  mkWorld (file w)
    (trace w ++
     [Printed [VStr "indices";
               VList (map Z.of_nat (occurrences sub (file w)))]]).

(** The world after a full run that found the last marker at [p] and the
    closing tag at [c]. *)
Definition after_write (w : world) (p c : nat) : world :=
  let text := file w in
  let line_start := line_start_of text (Z.of_nat p) in
  let end_ := line_end_of text (Z.of_nat c) in
  let new_text := slice_to text line_start ++ slice_from text end_ in
  mkWorld new_text
    ((trace (after_scan w) ++ [Wrote new_text]) ++
     [Printed [VStr "removed block from"; VInt line_start;
               VStr "to"; VInt end_]]).

(** How a run ends, by what the text holds. *)
Inductive ending (w : world) : res unit -> Prop :=
| NothingToRemove :
    (count sub (file w) <= 1)%nat ->
    ending w (Raise (SystemExit "nothing to remove") (after_scan w))
| EndNotFound (p : nat) :
    (2 <= count sub (file w))%nat ->
    last_occurrence sub (file w) = Some p ->
    next_occurrence closing_tag (file w) p = None ->
    ending w (Raise (SystemExit "end not found") (after_scan w))
| Removed (p c : nat) :
    (2 <= count sub (file w))%nat ->
    last_occurrence sub (file w) = Some p ->
    next_occurrence closing_tag (file w) p = Some c ->
    ending w (Ret tt (after_write w p c)).

(** What a successful run has located: the last marker [p], the closing tag
    [c], and the span [ls <= i < e] it removes. *)
Record located (text : str) (p c ls e : nat) : Prop := {
  loc_start : line_start_of text (Z.of_nat p) = Z.of_nat ls;
  loc_end : line_end_of text (Z.of_nat c) = Z.of_nat e;
  loc_line_start : is_line_start text p ls;
  loc_line_end : is_line_end text c e;
  loc_open_end : next_occurrence [newline] text c = None -> e = length text;
  loc_order : (ls <= p < c)%nat /\ (c <= e <= length text)%nat;
  loc_marker : occurs_atb sub text p = true;
  loc_last : forall k, (p < k)%nat -> occurs_atb sub text k = false
}.

(** The world a run ends in, whether it returns or raises. *)
Definition world_of {A} (r : res A) : world :=
  match r with
  | Ret _ w => w
  | Raise _ w => w
  end.

(** [n] further runs, one after the other. *)
Fixpoint rerun (n : nat) (w : world) : world :=
  match n with
  | O => w
  | S n' => rerun n' (world_of (main w))
  end.

(** ** The file on disk

    [main] works on the text that [read_text] hands it and on the text it hands
    to [write_text].  Below is what lies between those texts and the bytes of
    the file: UTF-8, the newline translation of Python's text mode, and the
    failures of opening and decoding.  [script] is the run on a real file. *)

Module Disk.

Definition bytes := list Byte.byte.

Definition byte_of (n : N) : Byte.byte :=
  match Byte.of_N n with
  | Some b => b
  | None => Byte.x00
  end.

Definition between (lo hi x : N) : bool := ((lo <=? x) && (x <=? hi))%N.

(** A continuation byte, [10xxxxxx]. *)
Definition cont (x : N) : bool := between 128 191 x.

(** The second byte of a three-byte sequence: no overlong form after [E0],
    no surrogate after [ED]. *)
Definition second3 (x0 x1 : N) : bool :=
  if (x0 =? 224)%N then between 160 191 x1
  else if (x0 =? 237)%N then between 128 159 x1
  else cont x1.

(** The second byte of a four-byte sequence: no overlong form after [F0],
    nothing above U+10FFFF after [F4]. *)
Definition second4 (x0 x1 : N) : bool :=
  if (x0 =? 240)%N then between 144 191 x1
  else if (x0 =? 244)%N then between 128 143 x1
  else cont x1.

Definition ok2 (x0 x1 : N) : bool := between 194 223 x0 && cont x1.
Definition ok3 (x0 x1 x2 : N) : bool :=
  between 224 239 x0 && second3 x0 x1 && cont x2.
Definition ok4 (x0 x1 x2 x3 : N) : bool :=
  between 240 244 x0 && second4 x0 x1 && cont x2 && cont x3.

Definition cp2 (x0 x1 : N) : char := ((x0 - 192) * 64 + (x1 - 128))%N.
Definition cp3 (x0 x1 x2 : N) : char :=
  ((x0 - 224) * 4096 + (x1 - 128) * 64 + (x2 - 128))%N.
Definition cp4 (x0 x1 x2 x3 : N) : char :=
  ((x0 - 240) * 262144 + (x1 - 128) * 4096 + (x2 - 128) * 64 + (x3 - 128))%N.

(** [bytes.decode('utf-8')], strict: [None] stands for [UnicodeDecodeError]. *)
Fixpoint utf8_decode (bs : bytes) : option str :=
  match bs with
  | [] => Some []
  | b0 :: r0 =>
      let x0 := Byte.to_N b0 in
      if (x0 <? 128)%N then option_map (cons x0) (utf8_decode r0)
      else
        match r0 with
        | [] => None
        | b1 :: r1 =>
            let x1 := Byte.to_N b1 in
            if ok2 x0 x1 then option_map (cons (cp2 x0 x1)) (utf8_decode r1)
            else
              match r1 with
              | [] => None
              | b2 :: r2 =>
                  let x2 := Byte.to_N b2 in
                  if ok3 x0 x1 x2 then
                    option_map (cons (cp3 x0 x1 x2)) (utf8_decode r2)
                  else
                    match r2 with
                    | [] => None
                    | b3 :: r3 =>
                        let x3 := Byte.to_N b3 in
                        if ok4 x0 x1 x2 x3 then
                          option_map (cons (cp4 x0 x1 x2 x3)) (utf8_decode r3)
                        else None
                    end
              end
        end
  end.

(** The bytes of one code point; [None] for a surrogate, which UTF-8 cannot
    carry ([UnicodeEncodeError]), and for a number that is no code point. *)
Definition utf8_encode_char (c : char) : option bytes :=
  if (c <? 128)%N then Some [byte_of c]
  else if (c <? 2048)%N then
    Some [byte_of (192 + c / 64); byte_of (128 + c mod 64)]
  else if (c <? 65536)%N then
    if between 55296 57343 c then None
    else Some [byte_of (224 + c / 4096); byte_of (128 + (c / 64) mod 64);
               byte_of (128 + c mod 64)]
  else if (c <? 1114112)%N then
    Some [byte_of (240 + c / 262144); byte_of (128 + (c / 4096) mod 64);
          byte_of (128 + (c / 64) mod 64); byte_of (128 + c mod 64)]
  else None.

(** [text.encode('utf-8')] *)
Fixpoint utf8_encode (t : str) : option bytes :=
  match t with
  | [] => Some []
  | c :: r =>
      match utf8_encode_char c, utf8_encode r with
      | Some a, Some b => Some (a ++ b)
      | _, _ => None
      end
  end.

Definition carriage_return : char := 13%N.

(** Reading in text mode with [newline=None]: ['\r\n'] and ['\r'] become
    ['\n']. *)
Fixpoint universal_newlines (t : str) : str :=
  match t with
  | [] => []
  | c :: r =>
      if (c =? carriage_return)%N then
        match r with
        | [] => [newline]
        | d :: r' =>
            if (d =? newline)%N then newline :: universal_newlines r'
            else newline :: universal_newlines r
        end
      else c :: universal_newlines r
  end.

(** Writing in text mode with [newline=None]: ['\n'] becomes [os.linesep]. *)
Definition write_newlines (sep t : str) : str :=
  flat_map (fun c => if (c =? newline)%N then sep else [c]) t.

Inductive os : Type := Posix | Windows.

(** [os.linesep] *)
Definition linesep (o : os) : str :=
  match o with
  | Posix => [newline]
  | Windows => [carriage_return; newline]
  end.

(** What the run can see and change: the file at the path ([None] when there
    is none), the platform, and what has been printed. *)
Record system : Type := mkSystem {
  on_disk : option bytes;
  platform : os;
  stdout : list (list value)
}.

Inductive pyexn : Type :=
| FileNotFoundError
| UnicodeDecodeError
| UnicodeEncodeError
| Raised (e : exn).

(** [text_path.read_text(encoding='utf-8')] on the system. *)
Definition Path_read_text (s : system) : pyexn + str :=
  match on_disk s with
  | None => inl FileNotFoundError
  | Some bs =>
      match utf8_decode bs with
      | None => inl UnicodeDecodeError
      | Some t => inr (universal_newlines t)
      end
  end.

(** [text_path.write_text(data, encoding='utf-8')] on the system.  The file
    is opened for writing, which empties it, before the text is encoded. *)
Definition Path_write_text (data : str) (s : system)
  : option pyexn * system :=
  match utf8_encode (write_newlines (linesep (platform s)) data) with
  | Some bs => (None, mkSystem (Some bs) (platform s) (stdout s))
  | None => (Some UnicodeEncodeError, mkSystem (Some []) (platform s) (stdout s))
  end.

(** The effects of a run of [main], carried out in order; a failing write
    ends the run. *)
Fixpoint carry_out (evs : list event) (s : system) : option pyexn * system :=
  match evs with
  | [] => (None, s)
  | Printed args :: r =>
      carry_out r (mkSystem (on_disk s) (platform s) (stdout s ++ [args]))
  | Wrote data :: r =>
      match Path_write_text data s with
      | (None, s') => carry_out r s'
      | (Some e, s') => (Some e, s')
      end
  end.

(** The script on a system: the exception that ends it, if any, and the
    system it leaves. *)
Definition script (s : system) : option pyexn * system :=
  match Path_read_text s with
  | inl e => (Some e, s)
  | inr text =>
      let r := main (mkWorld text []) in
      match carry_out (trace (world_of r)) s with
      | (Some e, s') => (Some e, s')
      | (None, s') =>
          match r with
          | Ret _ _ => (None, s')
          | Raise e _ => (Some (Raised e), s')
          end
      end
  end.

(** The bytes of a text that has them. *)
Definition to_bytes (t : str) : bytes :=
  match utf8_encode t with
  | Some bs => bs
  | None => []
  end.

End Disk.

Import Disk.

(** A Unicode scalar value: a code point that is no surrogate. *)
Definition scalar (c : char) : Prop :=
  (c < 55296 \/ 57344 <= c < 1114112)%N.

(** The system a successful run leaves, for a text [text] read on the
    platform [o] with [out] printed before: the cut [ls <= i < e] is applied,
    the new text is encoded and written, two lines are printed. *)
Definition system_after (o : os) (out : list (list value)) (text : str)
    (ls e : nat) : system :=
  mkSystem
    (utf8_encode (write_newlines (linesep o) (remove_span text ls e)))
    o
    (out ++
     [[VStr "indices"; VList (map Z.of_nat (occurrences sub text))];
      [VStr "removed block from"; VInt (Z.of_nat ls);
       VStr "to"; VInt (Z.of_nat e)]]).

(** Whether [new] is [orig] with one stretch of bytes taken out. *)
Definition is_cut_of (orig new : bytes) : bool :=
  existsb
    (fun i =>
       existsb
         (fun j =>
            if list_eq_dec Byte.byte_eq_dec (firstn i orig ++ skipn j orig) new
            then true else false)
         (seq i (S (length orig) - i)))
    (seq 0 (S (length orig))).

(** ** Sample files *)

Module Samples.

Definition nl : str := [newline].

(** Two blocks, each closed, and a trailing line. *)
Definition two_blocks : str :=
  lit "<Section " ++ sub ++ lit ">" ++ nl ++ lit "  a" ++ nl ++
  closing_tag ++ nl ++
  lit "  <Section " ++ sub ++ lit ">" ++ nl ++ lit "  b" ++ nl ++
  lit "  " ++ closing_tag ++ lit " " ++ nl ++ lit "end" ++ nl.

(** The second block is closed on the last line, which has no newline. *)
Definition open_end : str :=
  lit "<Section " ++ sub ++ lit ">" ++ nl ++ closing_tag ++ nl ++
  lit "<Section " ++ sub ++ lit ">" ++ nl ++ closing_tag.

(** The marker twice, the second block never closed. *)
Definition unclosed : str :=
  lit "<Section " ++ sub ++ lit ">" ++ nl ++ closing_tag ++ nl ++
  lit "<Section " ++ sub ++ lit ">" ++ nl.

(** The marker once. *)
Definition single : str :=
  lit "<Section " ++ sub ++ lit ">" ++ nl ++ closing_tag ++ nl.

End Samples.

Module DiskSamples.

(** [two_blocks] as a file with LF line ends, and with CRLF line ends. *)
Definition lf_file : bytes := to_bytes Samples.two_blocks.
Definition crlf_file : bytes :=
  to_bytes (write_newlines (linesep Windows) Samples.two_blocks).

(** The unclosed text as a file. *)
Definition unclosed_file : bytes := to_bytes Samples.unclosed.

(** A file that is not UTF-8. *)
Definition latin1_file : bytes := [Byte.x63; Byte.x61; Byte.x66; Byte.xe9].

End DiskSamples.

(** ** Matching a substring *)

Lemma starts_with_nth (s t : str) :
  starts_with s t = true <->
  forall j, (j < length s)%nat -> nth_error t j = nth_error s j.
Proof.
  revert t. induction s as [|a s IH]; intros t; simpl.
  - split; [intros _ j Hj; lia | reflexivity].
  - destruct t as [|b t].
    + split; [discriminate|]. intros H.
      specialize (H 0%nat ltac:(lia)). discriminate.
    + rewrite andb_true_iff, N.eqb_eq, IH. split.
      * intros [-> H] [|j] Hj; simpl; [reflexivity|]. apply H. lia.
      * intros H. split.
        -- specialize (H 0%nat ltac:(lia)). simpl in H. congruence.
        -- intros j Hj. apply (H (S j)). lia.
Qed.

Lemma starts_with_length (s t : str) :
  starts_with s t = true -> (length s <= length t)%nat.
Proof.
  revert t. induction s as [|a s IH]; intros [|b t]; simpl;
    try lia; try discriminate.
  rewrite andb_true_iff. intros [_ H]. apply IH in H. lia.
Qed.

Lemma starts_with_firstn (s t : str) :
  starts_with s t = true <-> firstn (length s) t = s.
Proof.
  revert t. induction s as [|a s IH]; intros [|b t]; simpl;
    try (split; [reflexivity | reflexivity]);
    try (split; discriminate).
  rewrite andb_true_iff, N.eqb_eq, IH. split.
  - intros [-> ->]. reflexivity.
  - intros [= -> H]. auto.
Qed.

Lemma occurs_atb_bound (s text : str) (i : nat) :
  occurs_atb s text i = true -> (i + length s <= length text)%nat.
Proof.
  unfold occurs_atb. rewrite andb_true_iff, Nat.leb_le. intros [Hi H].
  apply starts_with_length in H. rewrite length_skipn in H. lia.
Qed.

Lemma occurs_atb_iff (s text : str) (i : nat) :
  occurs_atb s text i = true <-> occurs_at s text i.
Proof.
  split.
  - intros H. split; [now apply occurs_atb_bound|].
    unfold occurs_atb in H. apply andb_true_iff in H.
    now apply starts_with_firstn.
  - intros [Hb H]. unfold occurs_atb.
    apply andb_true_iff. split; [apply Nat.leb_le; lia|].
    now apply starts_with_firstn.
Qed.

Lemma nth_error_skipn_add (text : str) (i j : nat) :
  nth_error (skipn i text) j = nth_error text (i + j).
Proof.
  revert text. induction i as [|i IH]; intros [|c text]; simpl; auto.
  now destruct j.
Qed.

Lemma occurs_atb_nth (s text : str) (i : nat) :
  occurs_atb s text i = true <->
  (i <= length text)%nat /\
  forall j, (j < length s)%nat -> nth_error text (i + j) = nth_error s j.
Proof.
  unfold occurs_atb. rewrite andb_true_iff, Nat.leb_le, starts_with_nth.
  split; intros [Hi H]; split; auto; intros j Hj;
    [rewrite <- nth_error_skipn_add | rewrite nth_error_skipn_add]; auto.
Qed.

(** ** The loop unfolded *)

Lemma scan_eq (text s : str) (indices : list Z) (start : Z) :
  scan text s indices start =
  match loop_body text s indices start with
  | Break r => r
  | Continue indices' start' => scan text s indices' start'
  end.
Proof.
  funelim (scan text s indices start);
    match goal with
    | H : loop_body _ _ _ _ = _ |- _ => rewrite H
    end; reflexivity.
Qed.

(** ** Filtering a range of positions *)

Section FilterSeq.

Variable f : nat -> bool.

Lemma filter_none (l : list nat) :
  (forall k, In k l -> f k = false) -> filter f l = [].
Proof.
  induction l as [|x l IH]; simpl; intros H; [reflexivity|].
  rewrite (H x) by auto. apply IH. intros k Hk. apply H. auto.
Qed.

Lemma hd_error_none {A} (l : list A) : hd_error l = None -> l = [].
Proof. destruct l; [reflexivity | discriminate]. Qed.

Lemma filter_seq_none (a n : nat) :
  filter f (seq a n) = [] ->
  forall k, (a <= k < a + n)%nat -> f k = false.
Proof.
  intros H k Hk. destruct (f k) eqn:E; [|reflexivity].
  assert (In k (filter f (seq a n))) as Hin
    by (apply filter_In; split; [apply in_seq; lia | exact E]).
  rewrite H in Hin. destruct Hin.
Qed.

(** The first position kept by the filter, and what follows it. *)
Lemma filter_seq_cons (a n i : nat) (l : list nat) :
  filter f (seq a n) = i :: l ->
  (a <= i < a + n)%nat /\ f i = true /\
  (forall k, (a <= k < i)%nat -> f k = false) /\
  l = filter f (seq (S i) (a + n - S i)).
Proof.
  revert a. induction n as [|n IH]; intros a; simpl; [discriminate|].
  destruct (f a) eqn:E.
  - intros [= <- <-].
    split; [lia|]. split; [exact E|]. split; [intros k Hk; lia|].
    do 2 f_equal. lia.
  - intros H. apply IH in H. destruct H as (Hi & Hf & Hlt & ->).
    split; [lia|]. split; [exact Hf|]. split.
    + intros k Hk. destruct (Nat.eq_dec k a) as [->|]; [exact E|].
      apply Hlt. lia.
    + do 2 f_equal. lia.
Qed.

End FilterSeq.

Lemma filter_ge_seq (p a n : nat) :
  filter (fun k => (p <=? k)%nat) (seq a n) =
  seq (Nat.max a p) (a + n - Nat.max a p).
Proof.
  revert a. induction n as [|n IH]; intros a; simpl.
  - replace (a + 0 - Nat.max a p)%nat with 0%nat by lia. reflexivity.
  - rewrite IH. destruct (p <=? a)%nat eqn:E.
    + apply Nat.leb_le in E.
      replace (Nat.max a p) with a by lia.
      replace (Nat.max (S a) p) with (S a) by lia.
      replace (a + S n - a)%nat with (S n) by lia.
      replace (S a + n - S a)%nat with n by lia. reflexivity.
    + apply Nat.leb_gt in E.
      replace (Nat.max (S a) p) with (Nat.max a p) by lia.
      f_equal. lia.
Qed.

Lemma filter_comm {A} (f g : A -> bool) (l : list A) :
  filter f (filter g l) = filter g (filter f l).
Proof.
  induction l as [|x l IH]; simpl; [reflexivity|].
  destruct (f x) eqn:Ef, (g x) eqn:Eg; simpl;
    rewrite ?Ef, ?Eg, IH; reflexivity.
Qed.

(** ** The occurrences from a position on *)

Lemma occ_from_0 (s text : str) : occ_from s text 0 = occurrences s text.
Proof. unfold occ_from, occurrences. now rewrite Nat.sub_0_r. Qed.

Lemma occurrences_from (s text : str) (p : nat) :
  filter (fun k => (p <=? k)%nat) (occurrences s text) = occ_from s text p.
Proof.
  unfold occurrences, occ_from.
  rewrite filter_comm, filter_ge_seq. simpl Nat.max.
  destruct (Nat.le_gt_cases p (S (length text))) as [H|H].
  - now replace (0 + S (length text) - p)%nat with (S (length text) - p)%nat
      by lia.
  - replace (0 + S (length text) - p)%nat with 0%nat by lia.
    now replace (S (length text) - p)%nat with 0%nat by lia.
Qed.

Lemma next_occurrence_from (s text : str) (p : nat) :
  next_occurrence s text p = hd_error (occ_from s text p).
Proof. unfold next_occurrence. now rewrite occurrences_from. Qed.

Lemma occ_from_cons (s text : str) (p i : nat) (l : list nat) :
  occ_from s text p = i :: l ->
  (p <= i <= length text)%nat /\ occurs_atb s text i = true /\
  (forall k, (p <= k < i)%nat -> occurs_atb s text k = false) /\
  l = occ_from s text (S i).
Proof.
  unfold occ_from. intros H. apply filter_seq_cons in H.
  destruct H as (Hi & Hf & Hlt & ->).
  split; [lia|]. split; [exact Hf|]. split; [exact Hlt|].
  do 2 f_equal. lia.
Qed.

Lemma occ_from_nil (s text : str) (p : nat) :
  occ_from s text p = [] ->
  forall k, (p <= k)%nat -> occurs_atb s text k = false.
Proof.
  intros H k Hk. destruct (Nat.le_gt_cases k (length text)) as [Hl|Hl].
  - apply (filter_seq_none _ _ _ H). lia.
  - unfold occurs_atb. apply Nat.leb_gt in Hl. now rewrite Hl.
Qed.

(** ** [find] returns the next occurrence *)

Lemma find_at_hd (s text t : str) (pos : nat) :
  skipn pos text = t -> (pos <= length text)%nat ->
  find_at s t pos =
  hd_error (filter (occurs_atb s text) (seq pos (S (length t)))).
Proof.
  revert pos. induction t as [|c t IH]; intros pos Ht Hpos.
  - simpl. unfold occurs_atb. rewrite Ht.
    replace (pos <=? length text)%nat with true
      by (symmetry; apply Nat.leb_le; lia).
    simpl. now destruct (starts_with s []).
  - assert (skipn (S pos) text = t) as Ht'.
    { replace (S pos) with (1 + pos)%nat by lia.
      rewrite <- skipn_skipn, Ht. reflexivity. }
    assert (S pos <= length text)%nat as Hpos'.
    { assert (length (skipn pos text) = S (length t)) as Hl
        by now rewrite Ht.
      rewrite length_skipn in Hl. lia. }
    change (seq pos (S (length (c :: t))))
      with (pos :: seq (S pos) (S (length t))).
    cbn [filter find_at]. unfold occurs_atb at 1. rewrite Ht.
    replace (pos <=? length text)%nat with true
      by (symmetry; apply Nat.leb_le; lia).
    cbn [andb]. destruct (starts_with s (c :: t)); [reflexivity|].
    now apply IH.
Qed.

Lemma find_next (s text : str) (p : nat) :
  find text s (Z.of_nat p) = index_or_minus1 (next_occurrence s text p).
Proof.
  rewrite next_occurrence_from. unfold find, adjust, len.
  replace (Z.of_nat p <? 0) with false by (symmetry; apply Z.ltb_ge; lia).
  rewrite Nat2Z.id.
  destruct (_ - _ <? _) eqn:E.
  - apply Z.ltb_lt in E. unfold occ_from. rewrite filter_none; [reflexivity|].
    intros k Hk. apply in_seq in Hk.
    destruct (occurs_atb s text k) eqn:Ek; [|reflexivity].
    apply occurs_atb_bound in Ek. lia.
  - apply Z.ltb_ge in E.
    rewrite (find_at_hd s text) by (auto; lia).
    unfold occ_from. rewrite length_skipn.
    now replace (S (length text - p)) with (S (length text) - p)%nat by lia.
Qed.

(** ** The loop collects the occurrences *)

Lemma scan_from (text s : str) (n : nat) :
  forall (p : nat) (acc : list Z),
    (S (length text) - p <= n)%nat ->
    scan text s acc (Z.of_nat p) = acc ++ map Z.of_nat (occ_from s text p).
Proof.
  induction n as [|n IH]; intros p acc Hn;
    rewrite scan_eq; unfold loop_body; rewrite find_next, next_occurrence_from;
    destruct (occ_from s text p) as [|i l] eqn:E; simpl.
  - now rewrite app_nil_r.
  - apply occ_from_cons in E. lia.
  - now rewrite app_nil_r.
  - replace (Z.of_nat i =? -1) with false by (symmetry; apply Z.eqb_neq; lia).
    apply occ_from_cons in E. destruct E as (Hi & _ & _ & ->).
    replace (Z.of_nat i + 1) with (Z.of_nat (S i)) by lia.
    rewrite IH by lia. now rewrite <- app_assoc.
Qed.

Lemma scan_occurrences (text s : str) :
  scan text s [] 0 = map Z.of_nat (occurrences s text).
Proof.
  change 0 with (Z.of_nat 0).
  rewrite (scan_from text s (S (length text))) by lia.
  now rewrite occ_from_0.
Qed.

(** ** The last occurrence *)

Lemma filter_rev_seq_hd (f : nat -> bool) (a n : nat) :
  match hd_error (rev (filter f (seq a n))) with
  | Some p => (a <= p < a + n)%nat /\ f p = true /\
              forall k, (p < k < a + n)%nat -> f k = false
  | None => filter f (seq a n) = []
  end.
Proof.
  induction n as [|n IH]; [reflexivity|].
  rewrite seq_S, filter_app, rev_app_distr. simpl.
  destruct (f (a + n)%nat) eqn:E; simpl.
  - split; [lia|]. split; [exact E|]. intros k Hk. lia.
  - destruct (hd_error (rev (filter f (seq a n)))) as [p|].
    + destruct IH as (Hp & Hf & Hgt). split; [lia|]. split; [exact Hf|].
      intros k Hk. destruct (Nat.eq_dec k (a + n)) as [->|]; [exact E|].
      apply Hgt. lia.
    + rewrite IH. reflexivity.
Qed.

Lemma last_occurrence_some (s text : str) (p : nat) :
  last_occurrence s text = Some p ->
  occurs_atb s text p = true /\
  forall k, (p < k)%nat -> occurs_atb s text k = false.
Proof.
  unfold last_occurrence, occurrences. intros H.
  pose proof (filter_rev_seq_hd (occurs_atb s text) 0 (S (length text))) as L.
  rewrite H in L. destruct L as (Hp & Hf & Hgt). split; [exact Hf|].
  intros k Hk. destruct (Nat.le_gt_cases k (length text)) as [Hl|Hl].
  - apply Hgt. lia.
  - unfold occurs_atb. apply Nat.leb_gt in Hl. now rewrite Hl.
Qed.

Lemma last_occurrence_none (s text : str) :
  last_occurrence s text = None -> occurrences s text = [].
Proof.
  unfold last_occurrence, occurrences. intros H.
  pose proof (filter_rev_seq_hd (occurs_atb s text) 0 (S (length text))) as L.
  now rewrite H in L.
Qed.

Lemma in_occurrences (s text : str) (i : nat) :
  In i (occurrences s text) <-> occurs_atb s text i = true.
Proof.
  unfold occurrences. rewrite filter_In, in_seq. split; [tauto|].
  intros H. split; [|exact H].
  apply occurs_atb_bound in H. lia.
Qed.

(** ** Single characters and lines *)

Lemma occurs_char (c : char) (text : str) (i : nat) :
  occurs_atb [c] text i = true <-> nth_error text i = Some c.
Proof.
  rewrite occurs_atb_nth. simpl. split.
  - intros [_ H]. specialize (H 0%nat ltac:(lia)).
    now rewrite Nat.add_0_r in H.
  - intros H. split.
    + apply Nat.lt_le_incl, nth_error_Some. congruence.
    + intros j Hj. replace j with 0%nat by lia.
      now rewrite Nat.add_0_r.
Qed.

Lemma not_occurs_char (c : char) (text : str) (i : nat) :
  occurs_atb [c] text i = false <-> nth_error text i <> Some c.
Proof.
  rewrite <- occurs_char. now destruct (occurs_atb [c] text i).
Qed.

Lemma rfind_at_spec (s t : str) (pos : nat) :
  match rfind_at s t pos with
  | Some i =>
      (pos <= i <= pos + length t)%nat /\
      starts_with s (skipn (i - pos) t) = true /\
      forall k, (i < k <= pos + length t)%nat ->
                starts_with s (skipn (k - pos) t) = false
  | None =>
      forall k, (pos <= k <= pos + length t)%nat ->
                starts_with s (skipn (k - pos) t) = false
  end.
Proof.
  revert pos. induction t as [|c t IH]; intros pos.
  - simpl. destruct (starts_with s []) eqn:E.
    + rewrite Nat.sub_diag. simpl. split; [lia|]. split; [exact E|].
      intros k Hk. lia.
    + intros k Hk. replace (k - pos)%nat with 0%nat by lia. exact E.
  - cbn [rfind_at]. specialize (IH (S pos)).
    assert (forall k, (pos < k)%nat ->
              skipn (k - pos) (c :: t) = skipn (k - S pos) t) as Hsk.
    { intros k Hk. replace (k - pos)%nat with (S (k - S pos)) by lia.
      reflexivity. }
    destruct (rfind_at s t (S pos)) as [i|].
    + destruct IH as (Hi & Hm & Hgt). simpl in Hi.
      split; [simpl; lia|]. split; [rewrite Hsk by lia; exact Hm|].
      intros k Hk. simpl in Hk. rewrite Hsk by lia. apply Hgt. simpl. lia.
    + destruct (starts_with s (c :: t)) eqn:E.
      * rewrite Nat.sub_diag. split; [simpl; lia|]. split; [exact E|].
        intros k Hk. simpl in Hk. rewrite Hsk by lia. apply IH. simpl. lia.
      * intros k Hk. simpl in Hk.
        destruct (Nat.eq_dec k pos) as [->|].
        -- rewrite Nat.sub_diag. exact E.
        -- rewrite Hsk by lia. apply IH. simpl. lia.
Qed.

Lemma starts_with_char (c : char) (t : str) (j : nat) :
  starts_with [c] (skipn j t) = true <-> nth_error t j = Some c.
Proof.
  rewrite starts_with_nth. simpl. split.
  - intros H. specialize (H 0%nat ltac:(lia)).
    now rewrite nth_error_skipn, Nat.add_0_r in H.
  - intros H k Hk. replace k with 0%nat by lia.
    now rewrite nth_error_skipn, Nat.add_0_r.
Qed.

Lemma line_start_spec (text : str) (p : nat) :
  (p <= length text)%nat ->
  exists ls, line_start_of text (Z.of_nat p) = Z.of_nat ls /\
             is_line_start text p ls.
Proof.
  intros Hp. unfold line_start_of, rfind, adjust_end, adjust, len.
  replace (Z.of_nat p >? Z.of_nat (length text)) with false
    by (symmetry; rewrite Z.gtb_ltb; apply Z.ltb_ge; lia).
  replace (Z.of_nat p <? 0) with false by (symmetry; apply Z.ltb_ge; lia).
  change (0 <? 0) with false. cbn iota. rewrite Z.sub_0_r, Nat2Z.id.
  change (Z.to_nat 0) with 0%nat. cbn [skipn].
  destruct (Z.of_nat p <? Z.of_nat (length [newline])) eqn:E.
  - apply Z.ltb_lt in E. simpl in E. exists 0%nat. split; [reflexivity|].
    split; [lia|]. split; [now left|]. intros j Hj. lia.
  - pose proof (rfind_at_spec [newline] (firstn p text) 0) as L.
    rewrite length_firstn in L.
    destruct (rfind_at [newline] (firstn p text) 0) as [i|]; simpl.
    + destruct L as (Hi & Hm & Hgt). rewrite Nat.sub_0_r in Hm.
      apply starts_with_char in Hm. rewrite nth_error_firstn in Hm.
      destruct (i <? p)%nat eqn:Hip; [|discriminate].
      apply Nat.ltb_lt in Hip.
      exists (S i). split; [lia|]. split; [lia|]. split.
      * right. simpl. now rewrite Nat.sub_0_r.
      * intros j Hj Hn.
        specialize (Hgt j ltac:(lia)). rewrite Nat.sub_0_r in Hgt.
        assert (starts_with [newline] (skipn j (firstn p text)) = true) as Ht.
        { apply starts_with_char. rewrite nth_error_firstn.
          replace (j <? p)%nat with true
            by (symmetry; apply Nat.ltb_lt; lia).
          exact Hn. }
        congruence.
    + exists 0%nat. split; [reflexivity|]. split; [lia|]. split; [now left|].
      intros j Hj Hn.
      specialize (L j ltac:(lia)). rewrite Nat.sub_0_r in L.
      assert (starts_with [newline] (skipn j (firstn p text)) = true) as Ht.
      { apply starts_with_char. rewrite nth_error_firstn.
        replace (j <? p)%nat with true by (symmetry; apply Nat.ltb_lt; lia).
        exact Hn. }
      congruence.
Qed.

Lemma line_end_spec (text : str) (c : nat) :
  (c <= length text)%nat ->
  exists e, line_end_of text (Z.of_nat c) = Z.of_nat e /\
            is_line_end text c e /\
            (next_occurrence [newline] text c = None -> e = length text).
Proof.
  intros Hc. unfold line_end_of. rewrite find_next, next_occurrence_from.
  destruct (occ_from [newline] text c) as [|e l] eqn:E; simpl.
  - exists (length text). split; [reflexivity|]. split; [|reflexivity].
    split; [lia|]. split; [now left|].
    intros j Hj. apply not_occurs_char. apply (occ_from_nil _ _ _ E). lia.
  - apply occ_from_cons in E. destruct E as (He & Hm & Hlt & _).
    replace (Z.of_nat e =? -1) with false by (symmetry; apply Z.eqb_neq; lia).
    exists e. split; [reflexivity|]. split; [|discriminate].
    split; [lia|]. split; [right; now apply occurs_char|].
    intros j Hj. apply not_occurs_char. now apply Hlt.
Qed.

(** ** The three ways a run ends *)

Lemma slice_to_nat (text : str) (k : nat) :
  slice_to text (Z.of_nat k) = firstn k text.
Proof.
  unfold slice_to, adjust.
  replace (Z.of_nat k <? 0) with false by (symmetry; apply Z.ltb_ge; lia).
  now rewrite Nat2Z.id.
Qed.

Lemma slice_from_nat (text : str) (k : nat) :
  slice_from text (Z.of_nat k) = skipn k text.
Proof.
  unfold slice_from, adjust.
  replace (Z.of_nat k <? 0) with false by (symmetry; apply Z.ltb_ge; lia).
  now rewrite Nat2Z.id.
Qed.

Lemma getitem_last (l : list nat) (p : nat) (w : world) :
  hd_error (rev l) = Some p ->
  getitem (map Z.of_nat l) (-1) w = Ret (Z.of_nat p) w.
Proof.
  intros H. destruct (rev l) as [|x r] eqn:E; [discriminate|].
  injection H as ->.
  assert (l = rev r ++ [p]) as -> by (now rewrite <- (rev_involutive l), E).
  unfold getitem. rewrite length_map, length_app, length_rev.
  change (length [p]) with 1%nat.
  change (-1 <? 0) with true. cbn iota.
  replace (-1 + Z.of_nat (length r + 1)) with (Z.of_nat (length r)) by lia.
  replace (Z.of_nat (length r) <? 0) with false
    by (symmetry; apply Z.ltb_ge; lia).
  replace (Z.of_nat (length r + 1) <=? Z.of_nat (length r)) with false
    by (symmetry; apply Z.leb_gt; lia).
  cbn [orb]. rewrite Nat2Z.id, map_app, nth_error_app2
    by (rewrite length_map, length_rev; lia).
  rewrite length_map, length_rev, Nat.sub_diag. reflexivity.
Qed.

Lemma main_ending (w : world) : ending w (main w).
Proof.
  unfold main, bind, read_text, print.
  rewrite scan_occurrences, length_map.
  fold (count sub (file w)). fold (after_scan w).
  destruct (Z.of_nat (count sub (file w)) <=? 1) eqn:Hc.
  - apply Z.leb_le in Hc. apply NothingToRemove. lia.
  - apply Z.leb_gt in Hc.
    destruct (last_occurrence sub (file w)) as [p|] eqn:Hp.
    2:{ apply last_occurrence_none in Hp. unfold count in Hc.
        rewrite Hp in Hc. simpl in Hc. lia. }
    rewrite (getitem_last _ p) by exact Hp.
    rewrite find_next.
    destruct (next_occurrence closing_tag (file w) p) as [c|] eqn:Hn; simpl.
    + replace (Z.of_nat c =? -1) with false
        by (symmetry; apply Z.eqb_neq; lia).
      unfold write_text. apply (Removed w p c); auto. lia.
    + apply (EndNotFound w p); auto. lia.
Qed.

Lemma main_removed (w w' : world) :
  main w = Ret tt w' ->
  exists p c,
    (2 <= count sub (file w))%nat /\
    last_occurrence sub (file w) = Some p /\
    next_occurrence closing_tag (file w) p = Some c /\
    w' = after_write w p c.
Proof.
  intros H. pose proof (main_ending w) as E. rewrite H in E.
  inversion E; subst. exists p, c. auto.
Qed.

(** What [next_occurrence] says: the least occurrence from [p] on, or that
    there is none. *)
Lemma next_occurrence_some (s text : str) (p c : nat) :
  next_occurrence s text p = Some c ->
  (p <= c <= length text)%nat /\ occurs_atb s text c = true /\
  forall k, (p <= k < c)%nat -> occurs_atb s text k = false.
Proof.
  rewrite next_occurrence_from. intros H.
  destruct (occ_from s text p) as [|i l] eqn:E; [discriminate|].
  injection H as ->. apply occ_from_cons in E. tauto.
Qed.

Lemma next_occurrence_none (s text : str) (p : nat) :
  next_occurrence s text p = None ->
  forall k, (p <= k)%nat -> occurs_atb s text k = false.
Proof.
  rewrite next_occurrence_from. intros H.
  apply hd_error_none in H. now apply occ_from_nil.
Qed.

(** ** The two fixed strings *)

Lemma sub_no_newline : ~ In newline sub.
Proof. vm_compute. intuition discriminate. Qed.

Lemma sub_head : nth_error sub 0 = Some 105%N.
Proof. reflexivity. Qed.

Lemma closing_tag_head : nth_error closing_tag 0 = Some 60%N.
Proof. reflexivity. Qed.

Lemma sub_length : length sub = 24%nat.
Proof. reflexivity. Qed.

Lemma closing_tag_length : length closing_tag = 10%nat.
Proof. reflexivity. Qed.

(** The closing tag cannot start where the marker starts. *)
Lemma closing_after_marker (text : str) (p c : nat) :
  occurs_atb sub text p = true ->
  occurs_atb closing_tag text c = true ->
  p <> c.
Proof.
  intros Hp Hc ->.
  apply occurs_atb_nth in Hp. apply occurs_atb_nth in Hc.
  destruct Hp as [_ Hp]. destruct Hc as [_ Hc].
  specialize (Hp 0%nat ltac:(rewrite sub_length; lia)).
  specialize (Hc 0%nat ltac:(rewrite closing_tag_length; lia)).
  rewrite sub_head in Hp. rewrite closing_tag_head in Hc. congruence.
Qed.

(** ** The located span *)

Lemma locate (text : str) (p c : nat) :
  last_occurrence sub text = Some p ->
  next_occurrence closing_tag text p = Some c ->
  exists ls e, located text p c ls e.
Proof.
  intros Hp Hc.
  apply last_occurrence_some in Hp. destruct Hp as [Hm Hlast].
  apply next_occurrence_some in Hc. destruct Hc as (Hpc & Hcm & _).
  pose proof (closing_after_marker text p c Hm Hcm) as Hne.
  destruct (line_start_spec text p ltac:(lia)) as (ls & Els & Hls).
  destruct (line_end_spec text c ltac:(lia)) as (e & Ee & He & Hopen).
  exists ls, e. constructor; auto.
  destruct Hls as (? & _). destruct He as (? & _). lia.
Qed.

Lemma after_write_file (w : world) (p c ls e : nat) :
  located (file w) p c ls e ->
  file (after_write w p c) = remove_span (file w) ls e.
Proof.
  intros L. unfold after_write, remove_span. cbn [file].
  rewrite (loc_start _ _ _ _ _ L), (loc_end _ _ _ _ _ L).
  now rewrite slice_to_nat, slice_from_nat.
Qed.

Lemma remove_span_length (text : str) (ls e : nat) :
  (ls <= e <= length text)%nat ->
  length (remove_span text ls e) = (ls + (length text - e))%nat.
Proof.
  intros H. unfold remove_span.
  rewrite length_app, length_firstn, length_skipn. lia.
Qed.

Lemma remove_span_nth (text : str) (ls e m : nat) :
  (ls <= length text)%nat ->
  nth_error (remove_span text ls e) m =
  if (m <? ls)%nat then nth_error text m
  else nth_error text (e + (m - ls)).
Proof.
  intros H. unfold remove_span.
  rewrite nth_error_app, length_firstn.
  replace (Nat.min ls (length text)) with ls by lia.
  rewrite nth_error_firstn, nth_error_skipn.
  now destruct (m <? ls)%nat.
Qed.

Lemma remove_span_split (text : str) (ls e : nat) :
  (ls <= e <= length text)%nat ->
  exists pre mid suf,
    text = pre ++ mid ++ suf /\ remove_span text ls e = pre ++ suf /\
    length pre = ls /\ length mid = (e - ls)%nat.
Proof.
  intros H.
  exists (firstn ls text), (firstn (e - ls) (skipn ls text)), (skipn e text).
  split; [|split; [reflexivity|split]].
  - replace (skipn e text) with (skipn (e - ls) (skipn ls text))
      by (rewrite skipn_skipn; f_equal; lia).
    now rewrite !firstn_skipn.
  - rewrite length_firstn. lia.
  - rewrite length_firstn, length_skipn. lia.
Qed.

(** No marker of the output is new, and the last marker of the input is
    gone. *)
Lemma remove_span_occurs (text : str) (p c ls e k : nat) :
  located text p c ls e ->
  occurs_atb sub (remove_span text ls e) k = true ->
  occurs_atb sub text k = true /\ (k + length sub <= ls)%nat.
Proof.
  intros L Hk.
  destruct (loc_order _ _ _ _ _ L) as [Ho1 Ho2].
  destruct (loc_line_start _ _ _ _ _ L) as (_ & Hnl & _).
  apply occurs_atb_nth in Hk. destruct Hk as [_ Hk].
  assert (forall j, (j < 24)%nat ->
            (if (k + j <? ls)%nat then nth_error text (k + j)
             else nth_error text (e + (k + j - ls))) = nth_error sub j) as H.
  { intros j Hj. rewrite <- remove_span_nth by lia. apply Hk.
    rewrite sub_length. exact Hj. }
  clear Hk. rewrite sub_length.
  destruct (Nat.le_gt_cases (k + 24) ls) as [Hin|Hout].
  - split; [|exact Hin]. apply occurs_atb_nth. split; [lia|].
    intros j Hj. rewrite sub_length in Hj. specialize (H j Hj).
    replace (k + j <? ls)%nat with true in H
      by (symmetry; apply Nat.ltb_lt; lia).
    exact H.
  - exfalso. destruct (Nat.le_gt_cases ls k) as [Hright|Hacross].
    + assert (occurs_atb sub text (e + (k - ls)) = true) as Hocc.
      { apply occurs_atb_nth. split.
        - specialize (H 0%nat ltac:(lia)).
          replace (k + 0 <? ls)%nat with false in H
            by (symmetry; apply Nat.ltb_ge; lia).
          rewrite sub_head, Nat.add_0_r in H.
          apply Nat.lt_le_incl, nth_error_Some. congruence.
        - intros j Hj. rewrite sub_length in Hj. specialize (H j Hj).
          replace (k + j <? ls)%nat with false in H
            by (symmetry; apply Nat.ltb_ge; lia).
          replace (e + (k - ls) + j)%nat with (e + (k + j - ls))%nat by lia.
          exact H. }
      rewrite (loc_last _ _ _ _ _ L) in Hocc by lia. discriminate.
    + specialize (H (ls - 1 - k)%nat ltac:(lia)).
      replace (k + (ls - 1 - k))%nat with (ls - 1)%nat in H by lia.
      replace (ls - 1 <? ls)%nat with true in H
        by (symmetry; apply Nat.ltb_lt; lia).
      destruct Hnl as [Hnl|Hnl]; [lia|].
      rewrite Hnl in H. symmetry in H. apply nth_error_In in H.
      now apply sub_no_newline.
Qed.

(** ** Further helpers for the properties *)

Lemma increasing_filter_seq (f : nat -> bool) (n a : nat) :
  increasing (map Z.of_nat (filter f (seq a n))).
Proof.
  revert a. induction n as [|n IH]; intros a; simpl; [exact I|].
  destruct (f a); [|apply IH].
  simpl. split; [|apply IH].
  destruct (filter f (seq (S a) n)) as [|y l] eqn:E; simpl; [exact I|].
  assert (In y (filter f (seq (S a) n))) as Hy by (rewrite E; now left).
  apply filter_In in Hy. destruct Hy as [Hy _]. apply in_seq in Hy. lia.
Qed.

Lemma firstn_snoc {A} (l : list A) (n : nat) (x : A) :
  nth_error l n = Some x -> firstn (S n) l = firstn n l ++ [x].
Proof.
  revert l. induction n as [|n IH]; intros [|y l]; simpl; try discriminate.
  - now intros [= ->].
  - intros H. f_equal. now apply IH.
Qed.

Lemma rerun_stable (n : nat) :
  forall w, (count sub (file w) <= 1)%nat -> file (rerun n w) = file w.
Proof.
  induction n as [|n IH]; intros w Hc; [reflexivity|].
  cbn [rerun]. destruct (main_ending w) as [_|p Hc' _ _|p c Hc' _ _];
    try lia.
  cbn [world_of]. now rewrite IH.
Qed.

Lemma rounds_scan (n : nat) :
  forall (text s : str) (indices : list Z) (start : Z),
    (remaining text start < n)%nat ->
    rounds n text s indices start = Some (scan text s indices start).
Proof.
  induction n as [|n IH]; intros text s indices start Hn; [lia|].
  cbn [rounds]. rewrite scan_eq.
  destruct (loop_body text s indices start) as [indices' start'|r] eqn:E;
    [|reflexivity].
  apply IH. apply loop_body_continue in E. unfold remaining in *. lia.
Qed.

Import Samples.

(** ** Properties of the script *)

(** C1, as stated: a file with the marker at least twice always makes the run
    succeed.  It does not: with the marker twice and the second block never
    closed, the run stops with "end not found" and writes nothing. *)
Lemma two_markers_unclosed_abort :
  (2 <= count sub unclosed)%nat /\
  (forall w, run unclosed <> Ret tt w) /\
  exists w, run unclosed = Raise (SystemExit "end not found") w /\
            file w = unclosed.
Proof.
  split; [vm_compute; lia|]. split.
  - intros w. vm_compute. discriminate.
  - eexists. split; vm_compute; reflexivity.
Qed.

(** C1, amended: when the text read from the file holds the marker at least
    twice, its last occurrence at [p], and the next closing tag at or after
    [p] at [c], the run succeeds and the text it writes is the text it read
    without the span from the start [ls] of the line holding [p] up to the
    end [e] of the line holding [c]; the newline at [e], which ends that
    line, stays, and no other character is altered.  This is about the text;
    what becomes of the bytes of the file is stated for [script] below. *)
Theorem splice_removes_last_block (w : world) (p c : nat) :
  (2 <= count sub (file w))%nat ->
  last_occurrence sub (file w) = Some p ->
  next_occurrence closing_tag (file w) p = Some c ->
  exists ls e w',
    main w = Ret tt w' /\
    is_line_start (file w) p ls /\
    is_line_end (file w) c e /\
    (ls <= e <= length (file w))%nat /\
    file w' = remove_span (file w) ls e /\
    In (Wrote (remove_span (file w) ls e)) (trace w').
Proof.
  intros Hcount Hp Hc.
  destruct (locate _ _ _ Hp Hc) as (ls & e & L).
  exists ls, e, (after_write w p c).
  destruct (main_ending w) as [Hc'|p' _ Hp' Hn'|p' c' _ Hp' Hc']; [lia| |].
  - rewrite Hp in Hp'. injection Hp' as <-. congruence.
  - rewrite Hp in Hp'. injection Hp' as <-.
    rewrite Hc in Hc'. injection Hc' as <-.
    split; [reflexivity|].
    split; [exact (loc_line_start _ _ _ _ _ L)|].
    split; [exact (loc_line_end _ _ _ _ _ L)|].
    split; [destruct (loc_order _ _ _ _ _ L); lia|].
    split; [now apply after_write_file|].
    rewrite <- (after_write_file w p c ls e L).
    unfold after_write. cbn [trace file].
    apply in_or_app. left. apply in_or_app. right. now left.
Qed.

Lemma splice_removes_last_block_witness :
  exists ls e w',
    main (mkWorld two_blocks []) = Ret tt w' /\
    is_line_start two_blocks 61 ls /\
    is_line_end two_blocks 93 e /\
    (ls <= e <= length two_blocks)%nat /\
    file w' = remove_span two_blocks ls e /\
    In (Wrote (remove_span two_blocks ls e)) (trace w').
Proof.
  apply (splice_removes_last_block (mkWorld two_blocks []) 61 93).
  - vm_compute. lia.
  - vm_compute. reflexivity.
  - vm_compute. reflexivity.
Defined.

(** C2: when the marker occurs once or not at all, the run stops with
    "nothing to remove"; the file is unchanged and the only effect is the
    print of the positions, so nothing is written. *)
Theorem nothing_to_remove (w : world) :
  (count sub (file w) <= 1)%nat ->
  exists w',
    main w = Raise (SystemExit "nothing to remove") w' /\
    file w' = file w /\
    trace w' =
      trace w ++
      [Printed [VStr "indices";
                VList (map Z.of_nat (occurrences sub (file w)))]].
Proof.
  intros Hc. exists (after_scan w).
  destruct (main_ending w) as [_|p Hc' _ _|p c Hc' _ _]; try lia.
  repeat split.
Qed.

Lemma nothing_to_remove_witness :
  exists w',
    main (mkWorld single []) = Raise (SystemExit "nothing to remove") w' /\
    file w' = single /\
    trace w' =
      [Printed [VStr "indices";
                VList (map Z.of_nat (occurrences sub single))]].
Proof.
  apply (nothing_to_remove (mkWorld single [])).
  vm_compute. lia.
Defined.

(** C3: when the marker occurs at least twice and no closing tag occurs at or
    after its last occurrence, the run stops with "end not found"; the file
    is unchanged and nothing is written. *)
Theorem end_not_found (w : world) (p : nat) :
  (2 <= count sub (file w))%nat ->
  last_occurrence sub (file w) = Some p ->
  next_occurrence closing_tag (file w) p = None ->
  exists w',
    main w = Raise (SystemExit "end not found") w' /\
    file w' = file w /\
    trace w' =
      trace w ++
      [Printed [VStr "indices";
                VList (map Z.of_nat (occurrences sub (file w)))]].
Proof.
  intros Hcount Hp Hn. exists (after_scan w).
  destruct (main_ending w) as [Hc'|p' _ Hp' Hn'|p' c' _ Hp' Hc']; [lia| |].
  - repeat split.
  - rewrite Hp in Hp'. injection Hp' as <-. congruence.
Qed.

Lemma end_not_found_witness :
  exists w',
    main (mkWorld unclosed []) = Raise (SystemExit "end not found") w' /\
    file w' = unclosed /\
    trace w' =
      [Printed [VStr "indices";
                VList (map Z.of_nat (occurrences sub unclosed))]].
Proof.
  apply (end_not_found (mkWorld unclosed []) 55).
  - vm_compute. lia.
  - vm_compute. reflexivity.
  - vm_compute. reflexivity.
Defined.

(** C4: after a run that succeeded, if the marker occurs at most once in the
    output, a second run stops with "nothing to remove" and leaves the file as
    it is, and so does any number of further runs. *)
Theorem second_run_stable (w w' : world) :
  main w = Ret tt w' ->
  (count sub (file w') <= 1)%nat ->
  (exists w'',
     main w' = Raise (SystemExit "nothing to remove") w'' /\
     file w'' = file w') /\
  forall n, file (rerun n w') = file w'.
Proof.
  intros _ Hc. split.
  - exists (after_scan w').
    destruct (main_ending w') as [_|p Hc' _ _|p c Hc' _ _]; try lia.
    split; reflexivity.
  - intros n. now apply rerun_stable.
Qed.

Lemma second_run_stable_witness :
  (exists w'',
     main (world_of (run two_blocks)) =
       Raise (SystemExit "nothing to remove") w'' /\
     file w'' = file (world_of (run two_blocks))) /\
  forall n, file (rerun n (world_of (run two_blocks))) =
            file (world_of (run two_blocks)).
Proof.
  apply (second_run_stable (mkWorld two_blocks []) (world_of (run two_blocks))).
  - vm_compute. reflexivity.
  - vm_compute. lia.
Defined.

(** C5: the output of a run that succeeded is [text[:line_start] + text[end:]]
    with [0 <= line_start <= end <= len(text)]: the text is a prefix, a middle
    and a suffix, and the output is that prefix followed by that suffix. *)
Theorem output_is_splice (w w' : world) :
  main w = Ret tt w' ->
  exists line_start end_ : Z,
    0 <= line_start <= end_ /\ end_ <= len (file w) /\
    file w' = slice_to (file w) line_start ++ slice_from (file w) end_ /\
    (exists pre mid suf,
       file w = pre ++ mid ++ suf /\ file w' = pre ++ suf /\
       len pre = line_start /\ len (pre ++ mid) = end_) /\
    exists before,
      trace w' =
        before ++
        [Wrote (file w');
         Printed [VStr "removed block from"; VInt line_start;
                  VStr "to"; VInt end_]].
Proof.
  intros H. apply main_removed in H. destruct H as (p & c & _ & Hp & Hc & ->).
  destruct (locate _ _ _ Hp Hc) as (ls & e & L).
  destruct (loc_order _ _ _ _ _ L) as [Ho1 Ho2].
  exists (Z.of_nat ls), (Z.of_nat e).
  split; [lia|]. split; [unfold len; lia|].
  assert (file (after_write w p c) =
          slice_to (file w) (Z.of_nat ls) ++ slice_from (file w) (Z.of_nat e))
    as Hfile.
  { unfold after_write. cbn [file].
    now rewrite (loc_start _ _ _ _ _ L), (loc_end _ _ _ _ _ L). }
  split; [exact Hfile|]. split.
  - destruct (remove_span_split (file w) ls e ltac:(lia))
      as (pre & mid & suf & Ht & Hr & Hl1 & Hl2).
    exists pre, mid, suf. split; [exact Ht|].
    split; [now rewrite (after_write_file w p c ls e L)|].
    unfold len. rewrite length_app. split; lia.
  - exists (trace (after_scan w)).
    unfold after_write. cbn [file trace].
    rewrite (loc_start _ _ _ _ _ L), (loc_end _ _ _ _ _ L).
    now rewrite <- app_assoc.
Qed.

Lemma output_is_splice_witness :
  exists line_start end_ : Z,
    0 <= line_start <= end_ /\ end_ <= len two_blocks /\
    file (world_of (run two_blocks)) =
      slice_to two_blocks line_start ++ slice_from two_blocks end_ /\
    (exists pre mid suf,
       two_blocks = pre ++ mid ++ suf /\
       file (world_of (run two_blocks)) = pre ++ suf /\
       len pre = line_start /\ len (pre ++ mid) = end_) /\
    exists before,
      trace (world_of (run two_blocks)) =
        before ++
        [Wrote (file (world_of (run two_blocks)));
         Printed [VStr "removed block from"; VInt line_start;
                  VStr "to"; VInt end_]].
Proof.
  apply (output_is_splice (mkWorld two_blocks []) (world_of (run two_blocks))).
  vm_compute. reflexivity.
Defined.

(** C6: the scan yields the positions at which the marker occurs, all of
    them and only them, in strictly increasing order, and the print of that
    list is the first thing a run does, whatever happens next. *)
Theorem scan_lists_occurrences (w : world) :
  scan (file w) sub [] 0 = map Z.of_nat (occurrences sub (file w)) /\
  (forall k, In k (occurrences sub (file w)) <-> occurs_at sub (file w) k) /\
  increasing (scan (file w) sub [] 0) /\
  exists rest,
    trace (world_of (main w)) =
      trace w ++
      Printed [VStr "indices"; VList (scan (file w) sub [] 0)] :: rest.
Proof.
  split; [apply scan_occurrences|]. split.
  - intros k. now rewrite in_occurrences, occurs_atb_iff.
  - rewrite scan_occurrences. split; [apply increasing_filter_seq|].
    destruct (main_ending w) as [_|p _ _ _|p c _ _ _]; cbn [world_of].
    + exists []. reflexivity.
    + exists []. reflexivity.
    + eexists. unfold after_write. cbn [trace after_scan].
      rewrite <- !app_assoc. reflexivity.
Qed.

(** C7: when the marker occurs at least twice, a closing tag occurs at or
    after its last occurrence, and no newline occurs at or after that closing
    tag, the span runs to the end of the file: the output is
    [text[:line_start]]. *)
Theorem span_reaches_end_of_file (w : world) (p c : nat) :
  (2 <= count sub (file w))%nat ->
  last_occurrence sub (file w) = Some p ->
  next_occurrence closing_tag (file w) p = Some c ->
  next_occurrence [newline] (file w) c = None ->
  exists w' ls,
    main w = Ret tt w' /\
    is_line_start (file w) p ls /\
    line_start_of (file w) (Z.of_nat p) = Z.of_nat ls /\
    file w' = slice_to (file w) (Z.of_nat ls) /\
    file w' = firstn ls (file w).
Proof.
  intros Hcount Hp Hc Hnl.
  destruct (locate _ _ _ Hp Hc) as (ls & e & L).
  exists (after_write w p c), ls.
  destruct (main_ending w) as [Hc'|p' _ Hp' Hn'|p' c' _ Hp' Hc']; [lia| |].
  - rewrite Hp in Hp'. injection Hp' as <-. congruence.
  - rewrite Hp in Hp'. injection Hp' as <-.
    rewrite Hc in Hc'. injection Hc' as <-.
    split; [reflexivity|].
    split; [exact (loc_line_start _ _ _ _ _ L)|].
    split; [exact (loc_start _ _ _ _ _ L)|].
    rewrite slice_to_nat, (after_write_file w p c ls e L).
    unfold remove_span.
    rewrite (loc_open_end _ _ _ _ _ L Hnl), skipn_all, app_nil_r.
    split; reflexivity.
Qed.

Lemma span_reaches_end_of_file_witness :
  exists w' ls,
    main (mkWorld open_end []) = Ret tt w' /\
    is_line_start open_end 55 ls /\
    line_start_of open_end 55 = Z.of_nat ls /\
    file w' = slice_to open_end (Z.of_nat ls) /\
    file w' = firstn ls open_end.
Proof.
  apply (span_reaches_end_of_file (mkWorld open_end []) 55 81).
  - vm_compute. lia.
  - vm_compute. reflexivity.
  - vm_compute. reflexivity.
  - vm_compute. reflexivity.
Defined.

(** C8: a run that succeeded leaves strictly fewer markers than it found.
    Every marker of the output is a marker of the input at the same position,
    and the last marker of the input is not among them. *)
Theorem marker_count_decreases (w w' : world) :
  main w = Ret tt w' ->
  (count sub (file w') < count sub (file w))%nat /\
  ~ In newline sub /\
  exists p ls e,
    last_occurrence sub (file w) = Some p /\
    (ls <= p < e)%nat /\
    file w' = firstn ls (file w) ++ skipn e (file w) /\
    (firstn ls (file w) = [] \/
     exists pre, firstn ls (file w) = pre ++ [newline]) /\
    ~ In p (occurrences sub (file w')) /\
    incl (occurrences sub (file w')) (occurrences sub (file w)).
Proof.
  intros H. apply main_removed in H. destruct H as (p & c & _ & Hp & Hc & ->).
  destruct (locate _ _ _ Hp Hc) as (ls & e & L).
  destruct (loc_order _ _ _ _ _ L) as [Ho1 Ho2].
  rewrite (after_write_file w p c ls e L).
  assert (forall k, In k (occurrences sub (remove_span (file w) ls e)) ->
            In k (occurrences sub (file w)) /\ k <> p) as Hsub.
  { intros k Hk. apply in_occurrences in Hk.
    apply (remove_span_occurs _ p c) in Hk; [|exact L].
    destruct Hk as [Hk Hb]. rewrite sub_length in Hb.
    split; [now apply in_occurrences | lia]. }
  assert (~ In p (occurrences sub (remove_span (file w) ls e))) as Hnot.
  { intros Hin. now destruct (Hsub p Hin). }
  split.
  - unfold count.
    apply (NoDup_incl_length
             (l := p :: occurrences sub (remove_span (file w) ls e))).
    + constructor; [exact Hnot|].
      apply NoDup_filter, seq_NoDup.
    + intros k [<-|Hk].
      * apply in_occurrences. exact (loc_marker _ _ _ _ _ L).
      * now apply Hsub.
  - split; [exact sub_no_newline|].
    exists p, ls, e. split; [exact Hp|]. split; [lia|].
    split; [reflexivity|]. split.
    + destruct (loc_line_start _ _ _ _ _ L) as (_ & Hnl & _).
      destruct ls as [|n]; [now left|].
      destruct Hnl as [Hnl|Hnl]; [discriminate|].
      right. exists (firstn n (file w)).
      simpl in Hnl. rewrite Nat.sub_0_r in Hnl. now apply firstn_snoc.
    + split; [exact Hnot|]. intros k Hk. now apply Hsub.
Qed.

Lemma marker_count_decreases_witness :
  (count sub (file (world_of (run two_blocks))) < count sub two_blocks)%nat /\
  ~ In newline sub /\
  exists p ls e,
    last_occurrence sub two_blocks = Some p /\
    (ls <= p < e)%nat /\
    file (world_of (run two_blocks)) =
      firstn ls two_blocks ++ skipn e two_blocks /\
    (firstn ls two_blocks = [] \/
     exists pre, firstn ls two_blocks = pre ++ [newline]) /\
    ~ In p (occurrences sub (file (world_of (run two_blocks)))) /\
    incl (occurrences sub (file (world_of (run two_blocks))))
         (occurrences sub two_blocks).
Proof.
  apply (marker_count_decreases (mkWorld two_blocks [])
           (world_of (run two_blocks))).
  vm_compute. reflexivity.
Defined.

(** C9: in a run that succeeded the span is not empty:
    [line_start <= remove_start < end], the closing tag lying strictly after
    the last marker, and the output is strictly shorter than the input. *)
Theorem span_nonempty (w w' : world) :
  main w = Ret tt w' ->
  exists p c,
    last_occurrence sub (file w) = Some p /\
    next_occurrence closing_tag (file w) p = Some c /\
    (p < c)%nat /\
    line_start_of (file w) (Z.of_nat p) <= Z.of_nat p /\
    Z.of_nat p < line_end_of (file w) (Z.of_nat c) /\
    file w' =
      slice_to (file w) (line_start_of (file w) (Z.of_nat p)) ++
      slice_from (file w) (line_end_of (file w) (Z.of_nat c)) /\
    (length (file w') < length (file w))%nat.
Proof.
  intros H. apply main_removed in H. destruct H as (p & c & _ & Hp & Hc & ->).
  destruct (locate _ _ _ Hp Hc) as (ls & e & L).
  destruct (loc_order _ _ _ _ _ L) as [Ho1 Ho2].
  exists p, c. split; [exact Hp|]. split; [exact Hc|]. split; [lia|].
  rewrite (loc_start _ _ _ _ _ L), (loc_end _ _ _ _ _ L).
  split; [lia|]. split; [lia|]. split.
  - unfold after_write. cbn [file].
    now rewrite (loc_start _ _ _ _ _ L), (loc_end _ _ _ _ _ L).
  - rewrite (after_write_file w p c ls e L), remove_span_length by lia. lia.
Qed.

Lemma span_nonempty_witness :
  exists p c,
    last_occurrence sub two_blocks = Some p /\
    next_occurrence closing_tag two_blocks p = Some c /\
    (p < c)%nat /\
    line_start_of two_blocks (Z.of_nat p) <= Z.of_nat p /\
    Z.of_nat p < line_end_of two_blocks (Z.of_nat c) /\
    file (world_of (run two_blocks)) =
      slice_to two_blocks (line_start_of two_blocks (Z.of_nat p)) ++
      slice_from two_blocks (line_end_of two_blocks (Z.of_nat c)) /\
    (length (file (world_of (run two_blocks))) < length two_blocks)%nat.
Proof.
  apply (span_nonempty (mkWorld two_blocks []) (world_of (run two_blocks))).
  vm_compute. reflexivity.
Defined.

(** C10: the scanning loop terminates on every text.  A round that does not
    break moves the search start right by at least one and keeps it at most
    [len(text) + 1], so the remaining range shrinks; hence the loop breaks
    within [remaining + 1] rounds, with the value of [scan]. *)
Theorem scan_terminates (text s : str) (indices : list Z) (start : Z) :
  match loop_body text s indices start with
  | Continue indices' start' =>
      find text s start <> -1 /\
      indices' = indices ++ [find text s start] /\
      start' = find text s start + 1 /\
      start < start' <= len text + 1 /\
      (remaining text start' < remaining text start)%nat
  | Break r => find text s start = -1 /\ r = indices
  end /\
  exists fuel,
    (fuel <= S (remaining text start))%nat /\
    rounds fuel text s indices start = Some (scan text s indices start).
Proof.
  split.
  - destruct (loop_body text s indices start) as [indices' start'|r] eqn:E.
    + pose proof (loop_body_continue _ _ _ _ _ _ E) as Hlt.
      unfold loop_body in E. destruct (_ =? _) eqn:Ei; [discriminate|].
      apply Z.eqb_neq in Ei. injection E as <- <-.
      unfold remaining. repeat split; try assumption; lia.
    + unfold loop_body in E. destruct (_ =? _) eqn:Ei; [|discriminate].
      apply Z.eqb_eq in Ei. injection E as <-. now split.
  - exists (S (remaining text start)). split; [lia|].
    apply rounds_scan. lia.
Qed.

(** ** Further properties of the script *)

Lemma closing_tag_no_newline : ~ In newline closing_tag.
Proof. vm_compute. intuition discriminate. Qed.

Lemma sub_no_bracket : ~ In 60%N sub.
Proof. vm_compute. intuition discriminate. Qed.

Lemma filter_all (f : nat -> bool) (l : list nat) :
  (forall k, In k l -> f k = true) -> filter f l = l.
Proof.
  induction l as [|x l IH]; simpl; intros H; [reflexivity|].
  rewrite (H x) by auto. f_equal. apply IH. intros k Hk. apply H. auto.
Qed.

Lemma filter_seq_shrink (f : nat -> bool) (n m : nat) :
  (n <= m)%nat ->
  (forall k, (n <= k < m)%nat -> f k = false) ->
  filter f (seq 0 m) = filter f (seq 0 n).
Proof.
  intros Hnm H. replace m with (n + (m - n))%nat by lia.
  rewrite seq_app, filter_app, (filter_none f (seq (0 + n) (m - n))).
  - apply app_nil_r.
  - intros k Hk. apply in_seq in Hk. apply H. lia.
Qed.

Lemma filter_lt_seq (b n : nat) :
  (b <= n)%nat -> filter (fun k => (k <? b)%nat) (seq 0 n) = seq 0 b.
Proof.
  intros H. rewrite (filter_seq_shrink _ b n H).
  - apply filter_all. intros k Hk. apply in_seq in Hk.
    apply Nat.ltb_lt. lia.
  - intros k Hk. apply Nat.ltb_ge. lia.
Qed.

Lemma filter_length_lt (f : nat -> bool) (l : list nat) (x : nat) :
  In x l -> f x = false -> (length (filter f l) < length l)%nat.
Proof.
  induction l as [|y l IH]; simpl; intros Hin Hx; [destruct Hin|].
  pose proof (filter_length_le f l) as Hle.
  destruct Hin as [->|Hin].
  - rewrite Hx. lia.
  - specialize (IH Hin Hx). destruct (f y); simpl; lia.
Qed.

Lemma skipn_cons_nth {A} (l : list A) (n : nat) (x : A) :
  nth_error l n = Some x -> skipn n l = x :: skipn (S n) l.
Proof.
  revert l. induction n as [|n IH]; intros [|y l]; simpl; try discriminate.
  - now intros [= ->].
  - intros H. now apply IH.
Qed.

(** A marker that starts left of the line start ends left of it too. *)
Lemma marker_left_of_line (text : str) (p c ls e k : nat) :
  located text p c ls e ->
  occurs_atb sub text k = true -> (k < ls)%nat ->
  (k + length sub <= ls)%nat.
Proof.
  intros L Hk Hlt. rewrite sub_length.
  destruct (Nat.le_gt_cases (k + 24) ls) as [|Hacross]; [assumption|].
  exfalso. destruct (loc_line_start _ _ _ _ _ L) as (_ & Hnl & _).
  destruct Hnl as [Hnl|Hnl]; [lia|].
  apply occurs_atb_nth in Hk. destruct Hk as [_ Hk].
  specialize (Hk (ls - 1 - k)%nat ltac:(rewrite sub_length; lia)).
  replace (k + (ls - 1 - k))%nat with (ls - 1)%nat in Hk by lia.
  rewrite Hnl in Hk. symmetry in Hk. apply nth_error_In in Hk.
  now apply sub_no_newline.
Qed.

(** The markers of the output are the markers of the input left of the
    removed span. *)
Lemma remove_span_occurrences (text : str) (p c ls e : nat) :
  located text p c ls e ->
  occurrences sub (remove_span text ls e) =
  filter (fun k => (k <? ls)%nat) (occurrences sub text).
Proof.
  intros L. destruct (loc_order _ _ _ _ _ L) as [Ho1 Ho2].
  unfold occurrences at 2. rewrite filter_comm, filter_lt_seq by lia.
  unfold occurrences.
  rewrite (filter_seq_shrink _ ls (S (length (remove_span text ls e)))).
  - apply filter_ext_in. intros k Hk. apply in_seq in Hk.
    destruct (occurs_atb sub text k) eqn:Et.
    + pose proof (marker_left_of_line _ _ _ _ _ _ L Et ltac:(lia)) as Hb.
      apply occurs_atb_nth. split.
      * rewrite remove_span_length by lia. lia.
      * intros j Hj. rewrite remove_span_nth by lia.
        replace (k + j <? ls)%nat with true
          by (symmetry; apply Nat.ltb_lt; lia).
        apply occurs_atb_nth in Et. now apply Et.
    + destruct (occurs_atb sub (remove_span text ls e) k) eqn:Eo;
        [|reflexivity].
      apply (remove_span_occurs _ p c) in Eo; [|exact L].
      destruct Eo as [Eo _]. congruence.
  - rewrite remove_span_length by lia. lia.
  - intros k Hk.
    destruct (occurs_atb sub (remove_span text ls e) k) eqn:Eo;
      [|reflexivity].
    apply (remove_span_occurs _ p c) in Eo; [|exact L].
    destruct Eo as [_ Eo]. rewrite sub_length in Eo. lia.
Qed.

Lemma after_write_count (w : world) (p c : nat) :
  last_occurrence sub (file w) = Some p ->
  next_occurrence closing_tag (file w) p = Some c ->
  (count sub (file (after_write w p c)) < count sub (file w))%nat.
Proof.
  intros Hp Hc. destruct (locate _ _ _ Hp Hc) as (ls & e & L).
  rewrite (after_write_file w p c ls e L). unfold count.
  rewrite (remove_span_occurrences _ _ _ _ _ L).
  apply (filter_length_lt _ _ p).
  - apply in_occurrences. exact (loc_marker _ _ _ _ _ L).
  - apply Nat.ltb_ge. destruct (loc_order _ _ _ _ _ L). lia.
Qed.

(** Whether a run aborts, and how, is decided by the text alone. *)
Lemma abort_by_file (w w' : world) (e : exn) :
  main w = Raise e w' ->
  forall v, file v = file w -> main v = Raise e (after_scan v).
Proof.
  intros H v Hv. pose proof (main_ending w) as Ew. rewrite H in Ew.
  destruct (main_ending v) as [Hc|p Hc Hp Hn|p c Hc Hp Hn];
    rewrite Hv in *; inversion Ew; subst; try reflexivity; try lia;
    congruence.
Qed.

Lemma abort_rerun (n : nat) :
  forall (w w' : world) (e : exn),
    main w = Raise e w' ->
    file (rerun n w) = file w /\
    main (rerun n w) = Raise e (after_scan (rerun n w)).
Proof.
  induction n as [|n IH]; intros w w' e H.
  - split; [reflexivity|]. now apply (abort_by_file w w').
  - cbn [rerun].
    pose proof (abort_by_file w w' e H w eq_refl) as Hw.
    rewrite Hw. cbn [world_of].
    destruct (IH (after_scan w) (after_scan (after_scan w)) e) as [Hf Hm].
    { now apply (abort_by_file w w'). }
    split; [rewrite Hf; reflexivity | exact Hm].
Qed.

Lemma stabilize_within (k : nat) :
  forall w, (count sub (file w) <= k)%nat ->
    exists n, (n <= k)%nat /\
      forall m, (n <= m)%nat -> file (rerun m w) = file (rerun n w).
Proof.
  induction k as [|k IH]; intros w Hk.
  - exists 0%nat. split; [lia|]. intros m _.
    destruct (main w) as [[] w1|e w1] eqn:Hm.
    + destruct (main_removed _ _ Hm) as (p & c & Hc & _). lia.
    + now destruct (abort_rerun m _ _ _ Hm).
  - destruct (main w) as [[] w1|e w1] eqn:Hm.
    + destruct (main_removed _ _ Hm) as (p & c & _ & Hp & Hc & ->).
      pose proof (after_write_count w p c Hp Hc) as Hlt.
      destruct (IH (after_write w p c) ltac:(lia)) as (n & Hn & Hst).
      exists (S n). split; [lia|]. intros m Hle.
      destruct m as [|m]; [lia|]. cbn [rerun]. rewrite Hm. cbn [world_of].
      apply Hst. lia.
    + exists 0%nat. split; [lia|]. intros m _.
      now destruct (abort_rerun m _ _ _ Hm).
Qed.

(** X1: a run returns normally exactly when the marker occurs at least twice
    and a closing tag occurs at or after its last occurrence. *)
Theorem run_succeeds_iff (w : world) :
  (exists w', main w = Ret tt w') <->
  ((2 <= count sub (file w))%nat /\
   exists p c,
     last_occurrence sub (file w) = Some p /\
     next_occurrence closing_tag (file w) p = Some c).
Proof.
  split.
  - intros [w' H]. destruct (main_removed _ _ H) as (p & c & Hc & Hp & Hn & _).
    split; [exact Hc|]. now exists p, c.
  - intros (Hcount & p & c & Hp & Hc).
    destruct (main_ending w) as [Hc'|p' _ Hp' Hn'|p' c' _ Hp' Hc']; [lia| |].
    + rewrite Hp in Hp'. injection Hp' as <-. congruence.
    + eexists. reflexivity.
Qed.

(** X3: a run that succeeded has done exactly three things, in this order:
    printed the positions, called [write_text] once, with [new_text], and
    printed two offsets; the difference of the printed offsets is
    [len(text) - len(new_text)], the number of characters by which the text
    written is shorter than the text read. *)
Theorem success_trace (w w' : world) :
  main w = Ret tt w' ->
  exists line_start end_ : Z,
    trace w' =
      trace w ++
      [Printed [VStr "indices"; VList (scan (file w) sub [] 0)];
       Wrote (file w');
       Printed [VStr "removed block from"; VInt line_start;
                VStr "to"; VInt end_]] /\
    len (file w) - len (file w') = end_ - line_start.
Proof.
  intros H. apply main_removed in H. destruct H as (p & c & _ & Hp & Hc & ->).
  destruct (locate _ _ _ Hp Hc) as (ls & e & L).
  destruct (loc_order _ _ _ _ _ L) as [Ho1 Ho2].
  exists (Z.of_nat ls), (Z.of_nat e). split.
  - rewrite scan_occurrences. unfold after_write. cbn [file trace after_scan].
    rewrite (loc_start _ _ _ _ _ L), (loc_end _ _ _ _ _ L).
    now rewrite <- !app_assoc.
  - rewrite (after_write_file w p c ls e L). unfold len.
    rewrite remove_span_length by lia. lia.
Qed.

Lemma success_trace_witness :
  exists line_start end_ : Z,
    trace (world_of (run two_blocks)) =
      [Printed [VStr "indices"; VList (scan two_blocks sub [] 0)];
       Wrote (file (world_of (run two_blocks)));
       Printed [VStr "removed block from"; VInt line_start;
                VStr "to"; VInt end_]] /\
    len two_blocks - len (file (world_of (run two_blocks))) =
      end_ - line_start.
Proof.
  apply (success_trace (mkWorld two_blocks []) (world_of (run two_blocks))).
  vm_compute. reflexivity.
Defined.

(** X4: after a run that succeeded the markers of the file are exactly the
    markers the input had left of [line_start], at the same positions.  A
    marker on the line of the last marker goes with it. *)
Theorem markers_left_of_span_kept (w w' : world) :
  main w = Ret tt w' ->
  exists p ls,
    last_occurrence sub (file w) = Some p /\
    line_start_of (file w) (Z.of_nat p) = Z.of_nat ls /\
    occurrences sub (file w') =
      filter (fun k => (k <? ls)%nat) (occurrences sub (file w)).
Proof.
  intros H. apply main_removed in H. destruct H as (p & c & _ & Hp & Hc & ->).
  destruct (locate _ _ _ Hp Hc) as (ls & e & L).
  exists p, ls. split; [exact Hp|]. split; [exact (loc_start _ _ _ _ _ L)|].
  rewrite (after_write_file w p c ls e L).
  exact (remove_span_occurrences _ _ _ _ _ L).
Qed.

Lemma markers_left_of_span_kept_witness :
  exists p ls,
    last_occurrence sub two_blocks = Some p /\
    line_start_of two_blocks (Z.of_nat p) = Z.of_nat ls /\
    occurrences sub (file (world_of (run two_blocks))) =
      filter (fun k => (k <? ls)%nat) (occurrences sub two_blocks).
Proof.
  apply (markers_left_of_span_kept (mkWorld two_blocks [])
           (world_of (run two_blocks))).
  vm_compute. reflexivity.
Defined.

(** X5: the removed span holds the whole last marker and the whole closing
    tag, one after the other: [line_start <= remove_start],
    [remove_start + len(sub) <= c] for the closing tag's position [c], and
    [c + len('</Section>') <= end].  So the file loses at least 34
    characters. *)
Theorem span_covers_marker_and_tag (w w' : world) :
  main w = Ret tt w' ->
  exists p c,
    last_occurrence sub (file w) = Some p /\
    next_occurrence closing_tag (file w) p = Some c /\
    line_start_of (file w) (Z.of_nat p) <= Z.of_nat p /\
    Z.of_nat p + len sub <= Z.of_nat c /\
    Z.of_nat c + len closing_tag <= line_end_of (file w) (Z.of_nat c) /\
    line_end_of (file w) (Z.of_nat c) <= len (file w) /\
    (length (file w') + 34 <= length (file w))%nat.
Proof.
  intros H. apply main_removed in H. destruct H as (p & c & _ & Hp & Hc & ->).
  destruct (locate _ _ _ Hp Hc) as (ls & e & L).
  destruct (loc_order _ _ _ _ _ L) as [Ho1 Ho2].
  pose proof (loc_marker _ _ _ _ _ L) as Hm.
  destruct (next_occurrence_some _ _ _ _ Hc) as (_ & Hcm & _).
  pose proof (occurs_atb_bound _ _ _ Hcm) as Hcb.
  rewrite closing_tag_length in Hcb.
  apply occurs_atb_nth in Hm. destruct Hm as [_ Hm].
  apply occurs_atb_nth in Hcm. destruct Hcm as [_ Hcm].
  assert (p + 24 <= c)%nat as Hpc.
  { destruct (Nat.le_gt_cases (p + 24) c) as [|Hin]; [assumption|].
    exfalso.
    specialize (Hm (c - p)%nat ltac:(rewrite sub_length; lia)).
    specialize (Hcm 0%nat ltac:(rewrite closing_tag_length; lia)).
    replace (p + (c - p))%nat with c in Hm by lia.
    rewrite Nat.add_0_r, closing_tag_head in Hcm. rewrite Hcm in Hm.
    symmetry in Hm. apply nth_error_In in Hm. now apply sub_no_bracket. }
  assert (c + 10 <= e)%nat as Hce.
  { destruct (Nat.le_gt_cases (c + 10) e) as [|Hin]; [assumption|].
    exfalso. destruct (loc_line_end _ _ _ _ _ L) as (_ & Hnl & _).
    destruct Hnl as [Hnl|Hnl]; [lia|].
    specialize (Hcm (e - c)%nat ltac:(rewrite closing_tag_length; lia)).
    replace (c + (e - c))%nat with e in Hcm by lia.
    rewrite Hnl in Hcm. symmetry in Hcm. apply nth_error_In in Hcm.
    now apply closing_tag_no_newline. }
  exists p, c. split; [exact Hp|]. split; [exact Hc|].
  rewrite (loc_start _ _ _ _ _ L), (loc_end _ _ _ _ _ L).
  unfold len. rewrite sub_length, closing_tag_length.
  split; [lia|]. split; [lia|]. split; [lia|]. split; [lia|].
  rewrite (after_write_file w p c ls e L), remove_span_length by lia. lia.
Qed.

Lemma span_covers_marker_and_tag_witness :
  exists p c,
    last_occurrence sub two_blocks = Some p /\
    next_occurrence closing_tag two_blocks p = Some c /\
    line_start_of two_blocks (Z.of_nat p) <= Z.of_nat p /\
    Z.of_nat p + len sub <= Z.of_nat c /\
    Z.of_nat c + len closing_tag <= line_end_of two_blocks (Z.of_nat c) /\
    line_end_of two_blocks (Z.of_nat c) <= len two_blocks /\
    (length (file (world_of (run two_blocks))) + 34 <= length two_blocks)%nat.
Proof.
  apply (span_covers_marker_and_tag (mkWorld two_blocks [])
           (world_of (run two_blocks))).
  vm_compute. reflexivity.
Defined.

(** X6: when a newline follows the closing tag, at [e], that newline is kept:
    the output is [text[:line_start]], the newline, and [text[e+1:]].  Where
    the block was, the output has a newline at [line_start]. *)
Theorem newline_after_block_kept (w : world) (p c e : nat) :
  (2 <= count sub (file w))%nat ->
  last_occurrence sub (file w) = Some p ->
  next_occurrence closing_tag (file w) p = Some c ->
  next_occurrence [newline] (file w) c = Some e ->
  exists w' ls,
    main w = Ret tt w' /\
    is_line_start (file w) p ls /\
    file w' = firstn ls (file w) ++ newline :: skipn (S e) (file w) /\
    nth_error (file w') ls = Some newline.
Proof.
  intros Hcount Hp Hc Hnl.
  destruct (locate _ _ _ Hp Hc) as (ls & e' & L).
  destruct (loc_order _ _ _ _ _ L) as [Ho1 Ho2].
  assert (e' = e) as ->.
  { pose proof (loc_end _ _ _ _ _ L) as He. unfold line_end_of in He.
    rewrite find_next, Hnl in He. cbn [index_or_minus1] in He.
    replace (Z.of_nat e =? -1) with false in He
      by (symmetry; apply Z.eqb_neq; lia).
    lia. }
  destruct (next_occurrence_some _ _ _ _ Hnl) as (_ & Hne & _).
  apply occurs_char in Hne.
  exists (after_write w p c), ls.
  destruct (main_ending w) as [Hc'|p' _ Hp' Hn'|p' c' _ Hp' Hc']; [lia| |].
  - rewrite Hp in Hp'. injection Hp' as <-. congruence.
  - rewrite Hp in Hp'. injection Hp' as <-.
    rewrite Hc in Hc'. injection Hc' as <-.
    split; [reflexivity|].
    split; [exact (loc_line_start _ _ _ _ _ L)|].
    rewrite (after_write_file w p c ls e L). unfold remove_span.
    rewrite (skipn_cons_nth _ _ _ Hne). split; [reflexivity|].
    rewrite nth_error_app2 by (rewrite length_firstn; lia).
    rewrite length_firstn.
    replace (ls - Nat.min ls (length (file w)))%nat with 0%nat by lia.
    reflexivity.
Qed.

Lemma newline_after_block_kept_witness :
  exists w' ls,
    main (mkWorld two_blocks []) = Ret tt w' /\
    is_line_start two_blocks 61 ls /\
    file w' = firstn ls two_blocks ++ newline :: skipn 105 two_blocks /\
    nth_error (file w') ls = Some newline.
Proof.
  apply (newline_after_block_kept (mkWorld two_blocks []) 61 93 104).
  - vm_compute. lia.
  - vm_compute. reflexivity.
  - vm_compute. reflexivity.
  - vm_compute. reflexivity.
Defined.

(** X7: an abort is permanent: once a run has raised, every further run
    raises the same exception and the file stays as it was. *)
Theorem abort_is_permanent (w w' : world) (e : exn) (n : nat) :
  main w = Raise e w' ->
  file (rerun n w) = file w /\
  exists w'', main (rerun n w) = Raise e w''.
Proof.
  intros H. destruct (abort_rerun n w w' e H) as [Hf Hm].
  split; [exact Hf|]. eexists. exact Hm.
Qed.

Lemma abort_is_permanent_witness :
  file (rerun 3 (mkWorld unclosed [])) = unclosed /\
  exists w'',
    main (rerun 3 (mkWorld unclosed [])) =
      Raise (SystemExit "end not found") w''.
Proof.
  apply (abort_is_permanent (mkWorld unclosed []) (world_of (run unclosed))
           (SystemExit "end not found") 3).
  vm_compute. reflexivity.
Defined.

(** X8: run again and again, the script stops changing the file: after at
    most as many runs as the file has markers, every further run leaves the
    content as it is. *)
Theorem reruns_stabilize (w : world) :
  exists n, (n <= count sub (file w))%nat /\
    forall m, (n <= m)%nat -> file (rerun m w) = file (rerun n w).
Proof. apply stabilize_within. lia. Qed.

(** X9: [text.find(s, start)] with [start >= 0], as the script uses it three
    times: the result is [-1] exactly when [s] does not occur at or after
    [start]; otherwise it is the least position at or after [start] where [s]
    occurs.  Past the end of the text the result is [-1]. *)
Theorem find_least_occurrence (text s : str) (p : nat) :
  (find text s (Z.of_nat p) = -1 <->
   forall k, (p <= k)%nat -> ~ occurs_at s text k) /\
  (forall i, find text s (Z.of_nat p) = Z.of_nat i <->
     ((p <= i)%nat /\ occurs_at s text i /\
      forall k, (p <= k < i)%nat -> ~ occurs_at s text k)) /\
  (forall start, len text < start -> find text s start = -1).
Proof.
  assert (forall k, occurs_atb s text k = false <-> ~ occurs_at s text k)
    as Hneg.
  { intros k. rewrite <- occurs_atb_iff.
    now destruct (occurs_atb s text k). }
  rewrite find_next.
  destruct (next_occurrence s text p) as [c|] eqn:E; cbn [index_or_minus1].
  - destruct (next_occurrence_some _ _ _ _ E) as (Hpc & Hm & Hlt).
    split; [|split].
    + split; [lia|]. intros H. exfalso.
      apply (H c); [lia|]. now apply occurs_atb_iff.
    + intros i. split.
      * intros Hi. apply Nat2Z.inj in Hi. subst i.
        split; [lia|]. split; [now apply occurs_atb_iff|].
        intros k Hk. apply Hneg. now apply Hlt.
      * intros (Hpi & Hoi & Hbefore). f_equal.
        destruct (Nat.lt_trichotomy c i) as [Hci|[->|Hic]];
          [|reflexivity|].
        -- exfalso. apply (Hbefore c); [lia|]. now apply occurs_atb_iff.
        -- exfalso. apply occurs_atb_iff in Hoi.
           rewrite Hlt in Hoi by lia. discriminate.
    + intros start Hs. unfold find, adjust.
      replace (start <? 0) with false
        by (symmetry; apply Z.ltb_ge; unfold len in Hs; lia).
      replace (len text - start <? len s) with true; [reflexivity|].
      symmetry. apply Z.ltb_lt. unfold len in *. lia.
  - pose proof (next_occurrence_none _ _ _ E) as Hnone.
    split; [|split].
    + split; [|reflexivity]. intros _ k Hk. apply Hneg. now apply Hnone.
    + intros i. split; [lia|]. intros (Hpi & Hoi & _). exfalso.
      apply occurs_atb_iff in Hoi. rewrite Hnone in Hoi by lia.
      discriminate.
    + intros start Hs. unfold find, adjust.
      replace (start <? 0) with false
        by (symmetry; apply Z.ltb_ge; unfold len in Hs; lia).
      replace (len text - start <? len s) with true; [reflexivity|].
      symmetry. apply Z.ltb_lt. unfold len in *. lia.
Qed.

(** X10: the loop as an accumulator, for any marker and any start [p >= 0]:
    it keeps what [indices] already holds and appends, in order, the
    positions at or after [p] where the marker occurs. *)
Theorem scan_appends (text s : str) (indices : list Z) (p : nat) :
  scan text s indices (Z.of_nat p) =
  indices ++
  map Z.of_nat (filter (fun k => (p <=? k)%nat) (occurrences s text)).
Proof.
  rewrite occurrences_from.
  apply (scan_from text s (S (length text))). lia.
Qed.

(** X11: for any position [p] of the text, [text.rfind('\n', 0, p) + 1] is
    where the line holding [p] starts ([0] when no newline precedes), and the
    first newline from [p] on, or [len(text)] when there is none, is where it
    ends; no newline lies between the two. *)
Theorem line_of_position (text : str) (p : nat) :
  (p <= length text)%nat ->
  exists ls e,
    line_start_of text (Z.of_nat p) = Z.of_nat ls /\
    line_end_of text (Z.of_nat p) = Z.of_nat e /\
    is_line_start text p ls /\
    is_line_end text p e /\
    forall j, (ls <= j < e)%nat -> nth_error text j <> Some newline.
Proof.
  intros Hp.
  destruct (line_start_spec text p Hp) as (ls & Els & Hls).
  destruct (line_end_spec text p Hp) as (e & Ee & He & _).
  exists ls, e. repeat (split; [assumption|]).
  intros j Hj. destruct (Nat.lt_ge_cases j p) as [Hlt|Hge].
  - destruct Hls as (_ & _ & H). apply H. lia.
  - destruct He as (_ & _ & H). apply H. lia.
Qed.

Lemma line_of_position_witness :
  exists ls e,
    line_start_of two_blocks 61 = Z.of_nat ls /\
    line_end_of two_blocks 61 = Z.of_nat e /\
    is_line_start two_blocks 61 ls /\
    is_line_end two_blocks 61 e /\
    forall j, (ls <= j < e)%nat -> nth_error two_blocks j <> Some newline.
Proof.
  apply (line_of_position two_blocks 61).
  vm_compute. lia.
Defined.

Import DiskSamples.

(** ** UTF-8 *)

Ltac divlia := zify; Z.to_euclidean_division_equations; lia.

Ltac bools :=
  repeat match goal with
  | H : _ && _ = true |- _ => apply andb_true_iff in H; destruct H
  | H : _ && _ = false |- _ => apply andb_false_iff in H
  | H : (_ <=? _)%N = true |- _ => apply N.leb_le in H
  | H : (_ <=? _)%N = false |- _ => apply N.leb_gt in H
  | H : (_ <? _)%N = true |- _ => apply N.ltb_lt in H
  | H : (_ <? _)%N = false |- _ => apply N.ltb_ge in H
  | H : (_ =? _)%N = true |- _ => apply N.eqb_eq in H
  | H : (_ =? _)%N = false |- _ => apply N.eqb_neq in H
  end.

Lemma byte_of_to_N (b : Byte.byte) : byte_of (Byte.to_N b) = b.
Proof. unfold byte_of. now rewrite Byte.of_to_N. Qed.

Lemma to_N_byte_of (n : N) : (n < 256)%N -> Byte.to_N (byte_of n) = n.
Proof.
  intros H. unfold byte_of. destruct (Byte.of_N n) as [b|] eqn:E.
  - now apply Byte.to_of_N.
  - apply Byte.of_N_None_iff in E. lia.
Qed.

Lemma between_spec (lo hi x : N) :
  between lo hi x = true <-> (lo <= x <= hi)%N.
Proof. unfold between. rewrite andb_true_iff, !N.leb_le. tauto. Qed.

Lemma second3_spec (x0 x1 : N) :
  second3 x0 x1 = true <->
  ((128 <= x1 <= 191)%N /\ (x0 = 224 -> 160 <= x1)%N /\
   (x0 = 237 -> x1 <= 159)%N).
Proof.
  unfold second3, cont.
  destruct (x0 =? 224)%N eqn:E1; [|destruct (x0 =? 237)%N eqn:E2];
    bools; rewrite between_spec; lia.
Qed.

Lemma second4_spec (x0 x1 : N) :
  second4 x0 x1 = true <->
  ((128 <= x1 <= 191)%N /\ (x0 = 240 -> 144 <= x1)%N /\
   (x0 = 244 -> x1 <= 143)%N).
Proof.
  unfold second4, cont.
  destruct (x0 =? 240)%N eqn:E1; [|destruct (x0 =? 244)%N eqn:E2];
    bools; rewrite between_spec; lia.
Qed.

Lemma ok2_spec (x0 x1 : N) :
  ok2 x0 x1 = true <-> ((194 <= x0 <= 223)%N /\ (128 <= x1 <= 191)%N).
Proof.
  unfold ok2, cont. rewrite andb_true_iff, !between_spec. tauto.
Qed.

Lemma ok3_spec (x0 x1 x2 : N) :
  ok3 x0 x1 x2 = true <->
  ((224 <= x0 <= 239)%N /\ (128 <= x1 <= 191)%N /\
   (x0 = 224 -> 160 <= x1)%N /\ (x0 = 237 -> x1 <= 159)%N /\
   (128 <= x2 <= 191)%N).
Proof.
  unfold ok3, cont.
  rewrite !andb_true_iff, !between_spec, second3_spec. tauto.
Qed.

Lemma ok4_spec (x0 x1 x2 x3 : N) :
  ok4 x0 x1 x2 x3 = true <->
  ((240 <= x0 <= 244)%N /\ (128 <= x1 <= 191)%N /\
   (x0 = 240 -> 144 <= x1)%N /\ (x0 = 244 -> x1 <= 143)%N /\
   (128 <= x2 <= 191)%N /\ (128 <= x3 <= 191)%N).
Proof.
  unfold ok4, cont.
  rewrite !andb_true_iff, !between_spec, second4_spec. tauto.
Qed.

(** The encoder, range by range. *)
Lemma encode_char_1 (c : char) :
  (c < 128)%N -> utf8_encode_char c = Some [byte_of c].
Proof.
  intros H. unfold utf8_encode_char.
  now replace (c <? 128)%N with true by (symmetry; apply N.ltb_lt; lia).
Qed.

Lemma encode_char_2 (c : char) :
  (128 <= c < 2048)%N ->
  utf8_encode_char c =
  Some [byte_of (192 + c / 64); byte_of (128 + c mod 64)].
Proof.
  intros H. unfold utf8_encode_char.
  replace (c <? 128)%N with false by (symmetry; apply N.ltb_ge; lia).
  now replace (c <? 2048)%N with true by (symmetry; apply N.ltb_lt; lia).
Qed.

Lemma encode_char_3 (c : char) :
  (2048 <= c < 65536)%N -> (c < 55296 \/ 57344 <= c)%N ->
  utf8_encode_char c =
  Some [byte_of (224 + c / 4096); byte_of (128 + (c / 64) mod 64);
        byte_of (128 + c mod 64)].
Proof.
  intros H Hs. unfold utf8_encode_char.
  replace (c <? 128)%N with false by (symmetry; apply N.ltb_ge; lia).
  replace (c <? 2048)%N with false by (symmetry; apply N.ltb_ge; lia).
  replace (c <? 65536)%N with true by (symmetry; apply N.ltb_lt; lia).
  destruct (between 55296 57343 c) eqn:E; [|reflexivity].
  apply between_spec in E. lia.
Qed.

Lemma encode_char_4 (c : char) :
  (65536 <= c < 1114112)%N ->
  utf8_encode_char c =
  Some [byte_of (240 + c / 262144); byte_of (128 + (c / 4096) mod 64);
        byte_of (128 + (c / 64) mod 64); byte_of (128 + c mod 64)].
Proof.
  intros H. unfold utf8_encode_char.
  replace (c <? 128)%N with false by (symmetry; apply N.ltb_ge; lia).
  replace (c <? 2048)%N with false by (symmetry; apply N.ltb_ge; lia).
  replace (c <? 65536)%N with false by (symmetry; apply N.ltb_ge; lia).
  now replace (c <? 1114112)%N with true by (symmetry; apply N.ltb_lt; lia).
Qed.

Lemma encode_char_scalar (c : char) :
  scalar c <-> utf8_encode_char c <> None.
Proof.
  unfold scalar. split.
  - intros H.
    destruct (N.lt_ge_cases c 128); [now rewrite encode_char_1|].
    destruct (N.lt_ge_cases c 2048); [now rewrite encode_char_2|].
    destruct (N.lt_ge_cases c 65536);
      [rewrite encode_char_3 by lia; discriminate|].
    rewrite encode_char_4 by lia. discriminate.
  - unfold utf8_encode_char. intros H.
    destruct (c <? 128)%N eqn:E1; bools; [lia|].
    destruct (c <? 2048)%N eqn:E2; bools; [lia|].
    destruct (c <? 65536)%N eqn:E3; bools.
    + destruct (between 55296 57343 c) eqn:E4; [congruence|].
      unfold between in E4. bools. destruct E4; bools; lia.
    + destruct (c <? 1114112)%N eqn:E4; bools; [lia|congruence].
Qed.

(** One decoding step undone by the encoder. *)
Lemma decode_step (b0 : Byte.byte) (r0 : bytes) (t : str) :
  utf8_decode (b0 :: r0) = Some t ->
  exists c enc rest t',
    b0 :: r0 = enc ++ rest /\ (length rest < length (b0 :: r0))%nat /\
    utf8_decode rest = Some t' /\ t = c :: t' /\
    utf8_encode_char c = Some enc.
Proof.
  cbn [utf8_decode].
  destruct (Byte.to_N b0 <? 128)%N eqn:E1.
  { bools. destruct (utf8_decode r0) as [t'|] eqn:D; [|discriminate].
    intros [= <-]. exists (Byte.to_N b0), [b0], r0, t'.
    repeat split; auto.
    now rewrite encode_char_1, byte_of_to_N. }
  destruct r0 as [|b1 r1]; [discriminate|].
  destruct (ok2 (Byte.to_N b0) (Byte.to_N b1)) eqn:E2.
  { apply ok2_spec in E2.
    destruct (utf8_decode r1) as [t'|] eqn:D; [|discriminate].
    intros [= <-]. exists (cp2 (Byte.to_N b0) (Byte.to_N b1)), [b0; b1], r1, t'.
    repeat split; auto; [simpl; lia|].
    unfold cp2. rewrite encode_char_2 by divlia.
    replace (192 + _)%N with (Byte.to_N b0) by divlia.
    replace (128 + _)%N with (Byte.to_N b1) by divlia.
    now rewrite !byte_of_to_N. }
  destruct r1 as [|b2 r2]; [discriminate|].
  destruct (ok3 (Byte.to_N b0) (Byte.to_N b1) (Byte.to_N b2)) eqn:E3.
  { apply ok3_spec in E3.
    destruct (utf8_decode r2) as [t'|] eqn:D; [|discriminate].
    intros [= <-].
    exists (cp3 (Byte.to_N b0) (Byte.to_N b1) (Byte.to_N b2)),
      [b0; b1; b2], r2, t'.
    repeat split; auto; [simpl; lia|].
    unfold cp3. rewrite encode_char_3 by divlia.
    replace (224 + _)%N with (Byte.to_N b0) by divlia.
    replace (128 + (_ / 64) mod 64)%N with (Byte.to_N b1) by divlia.
    replace (128 + _ mod 64)%N with (Byte.to_N b2) by divlia.
    now rewrite !byte_of_to_N. }
  destruct r2 as [|b3 r3]; [discriminate|].
  destruct (ok4 (Byte.to_N b0) (Byte.to_N b1) (Byte.to_N b2) (Byte.to_N b3))
    eqn:E4; [|discriminate].
  apply ok4_spec in E4.
  destruct (utf8_decode r3) as [t'|] eqn:D; [|discriminate].
  intros [= <-].
  exists (cp4 (Byte.to_N b0) (Byte.to_N b1) (Byte.to_N b2) (Byte.to_N b3)),
    [b0; b1; b2; b3], r3, t'.
  repeat split; auto; [simpl; lia|].
  unfold cp4. rewrite encode_char_4 by divlia.
  replace (240 + _)%N with (Byte.to_N b0) by divlia.
  replace (128 + (_ / 4096) mod 64)%N with (Byte.to_N b1) by divlia.
  replace (128 + (_ / 64) mod 64)%N with (Byte.to_N b2) by divlia.
  replace (128 + _ mod 64)%N with (Byte.to_N b3) by divlia.
  now rewrite !byte_of_to_N.
Qed.

Lemma decode_encode_bounded (n : nat) :
  forall (bs : bytes) (t : str),
    (length bs <= n)%nat ->
    utf8_decode bs = Some t -> utf8_encode t = Some bs.
Proof.
  induction n as [|n IH]; intros [|b0 r0] t Hn H;
    try (injection H as <-; reflexivity); [simpl in Hn; lia|].
  apply decode_step in H.
  destruct H as (c & enc & rest & t' & Hsplit & Hlen & Hrest & -> & Henc).
  cbn [utf8_encode]. rewrite Henc, (IH rest t') by (auto; simpl in *; lia).
  now rewrite Hsplit.
Qed.

Lemma decode_encode (bs : bytes) (t : str) :
  utf8_decode bs = Some t -> utf8_encode t = Some bs.
Proof. now apply (decode_encode_bounded (length bs)). Qed.

(** One encoded code point in front of a byte string decodes to itself. *)
Lemma decode_encoded_char (c : char) (enc rest : bytes) :
  utf8_encode_char c = Some enc ->
  utf8_decode (enc ++ rest) = option_map (cons c) (utf8_decode rest).
Proof.
  intros H.
  assert (scalar c) as Hs by (apply encode_char_scalar; congruence).
  unfold scalar in Hs.
  destruct (N.lt_ge_cases c 128) as [H1|H1].
  { rewrite encode_char_1 in H by lia.
    replace enc with [byte_of c] by congruence.
    cbn [app utf8_decode]. rewrite to_N_byte_of by lia.
    now replace (c <? 128)%N with true by (symmetry; apply N.ltb_lt; lia). }
  destruct (N.lt_ge_cases c 2048) as [H2|H2].
  { rewrite encode_char_2 in H by lia.
    replace enc with [byte_of (192 + c / 64); byte_of (128 + c mod 64)]
      by congruence.
    cbn [app utf8_decode].
    rewrite (to_N_byte_of (192 + c / 64)), (to_N_byte_of (128 + c mod 64))
      by divlia.
    replace (192 + c / 64 <? 128)%N with false
      by (symmetry; apply N.ltb_ge; divlia).
    replace (ok2 _ _) with true by (symmetry; apply ok2_spec; divlia).
    unfold cp2. do 2 f_equal. divlia. }
  destruct (N.lt_ge_cases c 65536) as [H3|H3].
  { rewrite encode_char_3 in H by lia.
    replace enc with [byte_of (224 + c / 4096);
                      byte_of (128 + (c / 64) mod 64);
                      byte_of (128 + c mod 64)] by congruence.
    cbn [app utf8_decode].
    rewrite (to_N_byte_of (224 + c / 4096)),
      (to_N_byte_of (128 + (c / 64) mod 64)), (to_N_byte_of (128 + c mod 64))
      by divlia.
    replace (224 + c / 4096 <? 128)%N with false
      by (symmetry; apply N.ltb_ge; divlia).
    replace (ok2 _ _) with false.
    2:{ symmetry. apply not_true_is_false. rewrite ok2_spec. divlia. }
    replace (ok3 _ _ _) with true by (symmetry; apply ok3_spec; divlia).
    unfold cp3. do 2 f_equal. divlia. }
  rewrite encode_char_4 in H by lia.
  replace enc with [byte_of (240 + c / 262144);
                    byte_of (128 + (c / 4096) mod 64);
                    byte_of (128 + (c / 64) mod 64);
                    byte_of (128 + c mod 64)] by congruence.
  cbn [app utf8_decode].
  rewrite (to_N_byte_of (240 + c / 262144)),
    (to_N_byte_of (128 + (c / 4096) mod 64)),
    (to_N_byte_of (128 + (c / 64) mod 64)), (to_N_byte_of (128 + c mod 64))
    by divlia.
  replace (240 + c / 262144 <? 128)%N with false
    by (symmetry; apply N.ltb_ge; divlia).
  replace (ok2 _ _) with false.
  2:{ symmetry. apply not_true_is_false. rewrite ok2_spec. divlia. }
  replace (ok3 _ _ _) with false.
  2:{ symmetry. apply not_true_is_false. rewrite ok3_spec. divlia. }
  replace (ok4 _ _ _ _) with true by (symmetry; apply ok4_spec; divlia).
  unfold cp4. do 2 f_equal. divlia.
Qed.

Lemma encode_decode (t : str) (bs : bytes) :
  utf8_encode t = Some bs -> utf8_decode bs = Some t.
Proof.
  revert bs. induction t as [|c t IH]; intros bs; cbn [utf8_encode].
  - now intros [= <-].
  - destruct (utf8_encode_char c) as [enc|] eqn:Ec; [|discriminate].
    destruct (utf8_encode t) as [rest|] eqn:Et; [|discriminate].
    intros [= <-]. rewrite (decode_encoded_char c enc rest Ec).
    now rewrite (IH rest eq_refl).
Qed.

Lemma encode_app (a b : str) :
  utf8_encode (a ++ b) =
  match utf8_encode a, utf8_encode b with
  | Some x, Some y => Some (x ++ y)
  | _, _ => None
  end.
Proof.
  induction a as [|c a IH]; cbn [app utf8_encode].
  - now destruct (utf8_encode b).
  - rewrite IH. destruct (utf8_encode_char c) as [x|]; [|reflexivity].
    destruct (utf8_encode a) as [y|]; [|reflexivity].
    destruct (utf8_encode b) as [z|]; [|reflexivity].
    now rewrite app_assoc.
Qed.

Lemma encode_scalars (t : str) :
  Forall scalar t <-> utf8_encode t <> None.
Proof.
  induction t as [|c t IH]; cbn [utf8_encode].
  - split; [discriminate | constructor].
  - split.
    + intros H. inversion H as [|? ? Hc Ht]; subst.
      apply encode_char_scalar in Hc. apply IH in Ht.
      destruct (utf8_encode_char c); [|congruence].
      destruct (utf8_encode t); congruence.
    + intros H. destruct (utf8_encode_char c) eqn:Ec; [|congruence].
      destruct (utf8_encode t) eqn:Et; [|congruence].
      constructor; [apply encode_char_scalar; congruence|].
      apply IH. discriminate.
Qed.

Lemma decoded_scalars (bs : bytes) (t : str) :
  utf8_decode bs = Some t -> Forall scalar t.
Proof.
  intros H. apply decode_encode in H. apply encode_scalars. congruence.
Qed.

(** The byte [0D] stands for the carriage return and for nothing else. *)
Lemma encode_char_cr (c : char) (enc : bytes) :
  utf8_encode_char c = Some enc ->
  (In Byte.x0d enc <-> c = carriage_return).
Proof.
  intros H.
  assert (forall n, (n < 256)%N -> n <> 13%N -> byte_of n <> Byte.x0d) as Hne.
  { intros n Hn Hn13 Heq. apply (f_equal Byte.to_N) in Heq.
    rewrite to_N_byte_of in Heq by exact Hn. now subst n. }
  assert (scalar c) as Hs by (apply encode_char_scalar; congruence).
  unfold scalar in Hs. unfold carriage_return.
  destruct (N.lt_ge_cases c 128) as [H1|H1].
  { rewrite encode_char_1 in H by lia.
    replace enc with [byte_of c] by congruence. split.
    - intros [Hin|[]]. destruct (N.eq_dec c 13) as [|Hc]; [assumption|].
      exfalso. apply (Hne c); [lia|assumption|assumption].
    - intros ->. now left. }
  destruct (N.lt_ge_cases c 2048) as [H2|H2].
  { rewrite encode_char_2 in H by lia.
    replace enc with [byte_of (192 + c / 64); byte_of (128 + c mod 64)]
      by congruence.
    split; [|lia]. intros [Hin|[Hin|[]]]; exfalso;
      revert Hin; apply Hne; divlia. }
  destruct (N.lt_ge_cases c 65536) as [H3|H3].
  { rewrite encode_char_3 in H by lia.
    replace enc with [byte_of (224 + c / 4096);
                      byte_of (128 + (c / 64) mod 64);
                      byte_of (128 + c mod 64)] by congruence.
    split; [|lia]. intros [Hin|[Hin|[Hin|[]]]]; exfalso;
      revert Hin; apply Hne; divlia. }
  rewrite encode_char_4 in H by lia.
  replace enc with [byte_of (240 + c / 262144);
                    byte_of (128 + (c / 4096) mod 64);
                    byte_of (128 + (c / 64) mod 64);
                    byte_of (128 + c mod 64)] by congruence.
  split; [|lia]. intros [Hin|[Hin|[Hin|[Hin|[]]]]]; exfalso;
    revert Hin; apply Hne; divlia.
Qed.

Lemma encode_cr (t : str) (bs : bytes) :
  utf8_encode t = Some bs ->
  (In Byte.x0d bs <-> In carriage_return t).
Proof.
  revert bs. induction t as [|c t IH]; intros bs; cbn [utf8_encode].
  - intros [= <-]. reflexivity.
  - destruct (utf8_encode_char c) as [enc|] eqn:Ec; [|discriminate].
    destruct (utf8_encode t) as [rest|] eqn:Et; [|discriminate].
    intros [= <-]. rewrite in_app_iff, (encode_char_cr c enc Ec),
      (IH rest eq_refl). simpl. split; intros [H|H]; auto.
Qed.

(** ** Newline translation *)

Lemma universal_newlines_no_cr (t : str) :
  ~ In carriage_return (universal_newlines t).
Proof.
  induction t as [|c r IH]; [intros []|].
  cbn [universal_newlines].
  destruct (c =? carriage_return)%N eqn:Ec.
  - destruct r as [|d r']; [intros [H|[]]; discriminate|].
    destruct (d =? newline)%N eqn:Ed.
    + cbn [universal_newlines] in IH.
      apply N.eqb_eq in Ed. subst d.
      change (newline =? carriage_return)%N with false in IH.
      exact IH.
    + intros [H|H]; [discriminate | now apply IH].
  - apply N.eqb_neq in Ec. intros [H|H]; [congruence | now apply IH].
Qed.

Lemma universal_newlines_id (t : str) :
  ~ In carriage_return t -> universal_newlines t = t.
Proof.
  induction t as [|c r IH]; [reflexivity|]. intros H.
  cbn [universal_newlines].
  replace (c =? carriage_return)%N with false.
  - f_equal. apply IH. intros Hin. apply H. now right.
  - symmetry. apply N.eqb_neq. intros ->. apply H. now left.
Qed.

Lemma universal_newlines_scalars (t : str) :
  Forall scalar t -> Forall scalar (universal_newlines t).
Proof.
  assert (scalar newline) as Hnl by (unfold scalar, newline; lia).
  induction t as [|c r IH]; [constructor|]. intros H.
  inversion H as [|? ? Hc Hr]; subst. specialize (IH Hr).
  cbn [universal_newlines].
  destruct (c =? carriage_return)%N.
  - destruct r as [|d r']; [now constructor|].
    destruct (d =? newline)%N eqn:Ed.
    + cbn [universal_newlines] in IH. apply N.eqb_eq in Ed. subst d.
      change (newline =? carriage_return)%N with false in IH.
      exact IH.
    + now constructor.
  - now constructor.
Qed.

Lemma write_newlines_posix (t : str) :
  write_newlines (linesep Posix) t = t.
Proof.
  unfold write_newlines. induction t as [|c r IH]; [reflexivity|].
  cbn [flat_map]. rewrite IH.
  destruct (c =? newline)%N eqn:E; [|reflexivity].
  apply N.eqb_eq in E. now subst c.
Qed.

(** What is written reads back as it was, on either platform. *)
Lemma read_back (o : os) (t : str) :
  ~ In carriage_return t ->
  universal_newlines (write_newlines (linesep o) t) = t.
Proof.
  unfold write_newlines. induction t as [|c r IH]; [reflexivity|]. intros H.
  assert (~ In carriage_return r) as Hr by (intros Hin; apply H; now right).
  assert (c <> carriage_return) as Hc by (intros ->; apply H; now left).
  specialize (IH Hr). cbn [flat_map].
  fold (write_newlines (linesep o) r) in *.
  set (rest := write_newlines (linesep o) r) in *.
  destruct (c =? newline)%N eqn:E.
  - apply N.eqb_eq in E. subst c. destruct o; cbn [linesep app].
    + cbn [universal_newlines].
      change (newline =? carriage_return)%N with false. now rewrite IH.
    + cbn [universal_newlines].
      change (carriage_return =? carriage_return)%N with true.
      change (newline =? newline)%N with true. now rewrite IH.
  - cbn [app universal_newlines].
    replace (c =? carriage_return)%N with false
      by (symmetry; now apply N.eqb_neq).
    now rewrite IH.
Qed.

Lemma write_newlines_scalars (o : os) (t : str) :
  Forall scalar t -> Forall scalar (write_newlines (linesep o) t).
Proof.
  assert (Forall scalar (linesep o)) as Hsep.
  { destruct o; repeat constructor; unfold scalar, newline, carriage_return;
      lia. }
  unfold write_newlines. induction t as [|c r IH]; [constructor|]. intros H.
  inversion H as [|? ? Hc Hr]; subst. cbn [flat_map].
  apply Forall_app. split; [|now apply IH].
  destruct (c =? newline)%N; [exact Hsep | now constructor].
Qed.

(** ** The run on a real file *)

Lemma encode_app_inv (a b : str) (bs : bytes) :
  utf8_encode (a ++ b) = Some bs ->
  exists x y, utf8_encode a = Some x /\ utf8_encode b = Some y /\ bs = x ++ y.
Proof.
  rewrite encode_app.
  destruct (utf8_encode a) as [x|]; [|discriminate].
  destruct (utf8_encode b) as [y|]; [|discriminate].
  intros [= <-]. now exists x, y.
Qed.

(** What [Path_read_text] returns is decoded from the file, has no carriage
    return and can be encoded. *)
Lemma read_text_inv (s : system) (text : str) :
  Path_read_text s = inr text ->
  exists bs t,
    on_disk s = Some bs /\ utf8_decode bs = Some t /\
    text = universal_newlines t /\
    ~ In carriage_return text /\ Forall scalar text.
Proof.
  unfold Path_read_text. destruct (on_disk s) as [bs|]; [|discriminate].
  destruct (utf8_decode bs) as [t|] eqn:D; [|discriminate].
  intros [= <-]. exists bs, t. repeat split; auto.
  - apply universal_newlines_no_cr.
  - apply universal_newlines_scalars. now apply (decoded_scalars bs).
Qed.

Lemma main_when_located (w : world) (p c : nat) :
  (2 <= count sub (file w))%nat ->
  last_occurrence sub (file w) = Some p ->
  next_occurrence closing_tag (file w) p = Some c ->
  main w = Ret tt (after_write w p c).
Proof.
  intros Hcount Hp Hc.
  destruct (main_ending w) as [Hc'|p' _ Hp' Hn'|p' c' _ Hp' Hc']; [lia| |].
  - rewrite Hp in Hp'. injection Hp' as <-. congruence.
  - rewrite Hp in Hp'. injection Hp' as <-.
    rewrite Hc in Hc'. now injection Hc' as <-.
Qed.

(** The part of a text that a cut keeps has the properties of the text. *)
Lemma remove_span_keeps (P : char -> Prop) (text : str) (ls e : nat) :
  (ls <= e <= length text)%nat ->
  Forall P text -> Forall P (remove_span text ls e).
Proof.
  intros H Ht.
  destruct (remove_span_split text ls e H) as (pre & mid & suf & E & -> & _).
  rewrite E in Ht. apply Forall_app in Ht. destruct Ht as [Hp Ht].
  apply Forall_app in Ht. destruct Ht as [_ Hs].
  apply Forall_app. now split.
Qed.

Lemma remove_span_in (x : char) (text : str) (ls e : nat) :
  (ls <= e <= length text)%nat ->
  In x (remove_span text ls e) -> In x text.
Proof.
  intros H.
  destruct (remove_span_split text ls e H) as (pre & mid & suf & E & -> & _).
  rewrite E, !in_app_iff. tauto.
Qed.

Lemma script_when_located (s : system) (text : str) (p c ls e : nat) :
  Path_read_text s = inr text ->
  (2 <= count sub text)%nat ->
  last_occurrence sub text = Some p ->
  next_occurrence closing_tag text p = Some c ->
  located text p c ls e ->
  script s = (None, system_after (platform s) (stdout s) text ls e) /\
  exists bs', utf8_encode
                (write_newlines (linesep (platform s))
                   (remove_span text ls e)) = Some bs'.
Proof.
  intros Hread Hcount Hp Hc L.
  destruct (read_text_inv s text Hread) as (bs & t & _ & _ & _ & Hcr & Hsc).
  destruct (loc_order _ _ _ _ _ L) as [Ho1 Ho2].
  assert (exists bs', utf8_encode
            (write_newlines (linesep (platform s))
               (remove_span text ls e)) = Some bs') as [bs' Hbs'].
  { destruct (utf8_encode (write_newlines (linesep (platform s))
                             (remove_span text ls e))) as [b|] eqn:E;
      [now exists b|].
    exfalso. revert E. apply encode_scalars, write_newlines_scalars.
    apply remove_span_keeps; [lia | exact Hsc]. }
  split; [|now exists bs'].
  unfold script. rewrite Hread. cbv zeta.
  rewrite (main_when_located (mkWorld text []) p c Hcount Hp Hc).
  cbn [world_of].
  pose proof (after_write_file (mkWorld text []) p c ls e L) as Hfile.
  unfold after_write in *. cbn [file trace after_scan app] in *.
  rewrite (loc_start _ _ _ _ _ L), (loc_end _ _ _ _ _ L) in *.
  rewrite Hfile. cbn [carry_out on_disk platform stdout].
  unfold Path_write_text. cbn [on_disk platform stdout].
  rewrite Hbs'. cbn [carry_out on_disk platform stdout].
  unfold system_after. rewrite Hbs', <- app_assoc. reflexivity.
Qed.


Lemma system_after_reads_back (o : os) (out : list (list value))
    (text : str) (ls e : nat) :
  (ls <= e <= length text)%nat ->
  ~ In carriage_return text -> Forall scalar text ->
  Path_read_text (system_after o out text ls e) =
  inr (remove_span text ls e).
Proof.
  intros H Hcr Hsc. unfold Path_read_text, system_after. cbn [on_disk].
  destruct (utf8_encode (write_newlines (linesep o) (remove_span text ls e)))
    as [bs'|] eqn:E.
  - rewrite (encode_decode _ _ E), read_back; [reflexivity|].
    intros Hin. apply Hcr. now apply (remove_span_in _ text ls e).
  - exfalso. revert E. apply encode_scalars, write_newlines_scalars.
    now apply remove_span_keeps.
Qed.

Lemma is_cut_of_complete (pre mid suf : bytes) :
  is_cut_of (pre ++ mid ++ suf) (pre ++ suf) = true.
Proof.
  unfold is_cut_of. apply existsb_exists. exists (length pre). split.
  - apply in_seq. rewrite !length_app. lia.
  - apply existsb_exists. exists (length pre + length mid)%nat. split.
    + apply in_seq. rewrite !length_app. lia.
    + rewrite firstn_app, firstn_all, Nat.sub_diag, firstn_0, app_nil_r.
      rewrite app_assoc, skipn_app, <- length_app, skipn_all, Nat.sub_diag.
      cbn [app skipn].
      now destruct (list_eq_dec Byte.byte_eq_dec (pre ++ suf) (pre ++ suf)).
Qed.


(** X2: on a system where the file, when there is one, can be opened, the
    run raises in four ways only: [FileNotFoundError] when there is no file
    and [UnicodeDecodeError] when the bytes are not UTF-8, both before
    anything is printed; [SystemExit('nothing to remove')] with at most one
    marker in the text read and [SystemExit('end not found')] with at least
    two and no closing tag from the last one on, both after the print of the
    positions.  In all four the file is as it was.  [indices[-1]] never
    raises [IndexError] and [write_text] never [UnicodeEncodeError]. *)
Theorem script_failures (s s' : system) (e : pyexn) :
  script s = (Some e, s') ->
  on_disk s' = on_disk s /\ platform s' = platform s /\
  ((e = FileNotFoundError /\ on_disk s = None /\ stdout s' = stdout s) \/
   (e = UnicodeDecodeError /\
    (exists bs, on_disk s = Some bs /\ utf8_decode bs = None) /\
    stdout s' = stdout s) \/
   (exists text,
      Path_read_text s = inr text /\
      stdout s' =
        stdout s ++ [[VStr "indices"; VList (scan text sub [] 0)]] /\
      ((e = Raised (SystemExit "nothing to remove") /\
        (count sub text <= 1)%nat) \/
       (e = Raised (SystemExit "end not found") /\
        (2 <= count sub text)%nat /\
        exists p, last_occurrence sub text = Some p /\
                  next_occurrence closing_tag text p = None)))).
Proof.
  intros H.
  destruct (Path_read_text s) as [e0|text] eqn:Hread.
  - unfold script in H. rewrite Hread in H. injection H as <- <-.
    split; [reflexivity|]. split; [reflexivity|].
    unfold Path_read_text in Hread.
    destruct (on_disk s) as [bs|] eqn:Hd.
    + destruct (utf8_decode bs) eqn:D; [discriminate|].
      injection Hread as <-. right. left.
      split; [reflexivity|]. split; [now exists bs | reflexivity].
    + injection Hread as <-. left. auto.
  - destruct (main (mkWorld text [])) as [[] w1|e1 w1] eqn:Hm.
    + destruct (main_removed _ _ Hm) as (p & c & Hc & Hp & Hn & _).
      cbn [file] in Hc, Hp, Hn.
      destruct (locate _ _ _ Hp Hn) as (ls & e2 & L).
      destruct (script_when_located s text p c ls e2 Hread Hc Hp Hn L)
        as [Hs _].
      rewrite Hs in H. discriminate.
    + unfold script in H. rewrite Hread in H. cbv zeta in H.
      pose proof (main_ending (mkWorld text [])) as E.
      rewrite Hm in *. cbn [world_of] in H.
      inversion E as [Hc Hr|p Hc Hp Hn Hr|]; subst e1 w1;
        cbn [file] in Hc;
        cbn [after_scan trace file app carry_out] in H;
        injection H as <- <-; cbn [on_disk platform stdout];
        (split; [reflexivity|]); (split; [reflexivity|]); right; right;
        exists text; rewrite scan_occurrences;
        (split; [reflexivity|]); (split; [reflexivity|]).
      * left. auto.
      * right. cbn [file] in Hp, Hn. split; [reflexivity|].
        split; [exact Hc|]. now exists p.
Qed.

Lemma script_failures_witness :
  on_disk (snd (script (mkSystem (Some unclosed_file) Posix []))) =
    Some unclosed_file /\
  platform (snd (script (mkSystem (Some unclosed_file) Posix []))) = Posix /\
  ((Raised (SystemExit "end not found") = FileNotFoundError /\
    Some unclosed_file = None /\
    stdout (snd (script (mkSystem (Some unclosed_file) Posix []))) = []) \/
   (Raised (SystemExit "end not found") = UnicodeDecodeError /\
    (exists bs, Some unclosed_file = Some bs /\ utf8_decode bs = None) /\
    stdout (snd (script (mkSystem (Some unclosed_file) Posix []))) = []) \/
   (exists text,
      Path_read_text (mkSystem (Some unclosed_file) Posix []) = inr text /\
      stdout (snd (script (mkSystem (Some unclosed_file) Posix []))) =
        [] ++ [[VStr "indices"; VList (scan text sub [] 0)]] /\
      ((Raised (SystemExit "end not found") =
          Raised (SystemExit "nothing to remove") /\
        (count sub text <= 1)%nat) \/
       (Raised (SystemExit "end not found") =
          Raised (SystemExit "end not found") /\
        (2 <= count sub text)%nat /\
        exists p, last_occurrence sub text = Some p /\
                  next_occurrence closing_tag text p = None)))).
Proof.
  apply (script_failures (mkSystem (Some unclosed_file) Posix [])
           (snd (script (mkSystem (Some unclosed_file) Posix [])))
           (Raised (SystemExit "end not found"))).
  vm_compute. reflexivity.
Defined.

(** X12: the run on a real file, on either platform.  When the text read
    from the file holds the marker at least twice, the last one at [p], and
    the next closing tag from [p] on at [c], the run finishes normally; the
    file then reads back as the text read without the span from the start
    [ls] of the line of [p] to the end [e] of the line of [c]; and exactly
    two lines have been printed, the positions and the two offsets. *)
Theorem script_success_on_disk (s : system) (text : str) (p c : nat) :
  Path_read_text s = inr text ->
  (2 <= count sub text)%nat ->
  last_occurrence sub text = Some p ->
  next_occurrence closing_tag text p = Some c ->
  exists ls e s',
    script s = (None, s') /\
    is_line_start text p ls /\
    is_line_end text c e /\
    Path_read_text s' = inr (remove_span text ls e) /\
    platform s' = platform s /\
    stdout s' =
      stdout s ++
      [[VStr "indices"; VList (scan text sub [] 0)];
       [VStr "removed block from"; VInt (Z.of_nat ls);
        VStr "to"; VInt (Z.of_nat e)]].
Proof.
  intros Hread Hcount Hp Hc.
  destruct (locate _ _ _ Hp Hc) as (ls & e & L).
  destruct (read_text_inv s text Hread) as (bs & t & _ & _ & _ & Hcr & Hsc).
  destruct (loc_order _ _ _ _ _ L) as [Ho1 Ho2].
  destruct (script_when_located s text p c ls e Hread Hcount Hp Hc L)
    as [Hs _].
  exists ls, e, (system_after (platform s) (stdout s) text ls e).
  split; [exact Hs|].
  split; [exact (loc_line_start _ _ _ _ _ L)|].
  split; [exact (loc_line_end _ _ _ _ _ L)|].
  split; [apply system_after_reads_back; auto; lia|].
  split; [reflexivity|].
  rewrite scan_occurrences. reflexivity.
Qed.

Lemma script_success_on_disk_witness :
  exists ls e s',
    script (mkSystem (Some crlf_file) Windows []) = (None, s') /\
    is_line_start two_blocks 61 ls /\
    is_line_end two_blocks 93 e /\
    Path_read_text s' = inr (remove_span two_blocks ls e) /\
    platform s' = Windows /\
    stdout s' =
      [] ++
      [[VStr "indices"; VList (scan two_blocks sub [] 0)];
       [VStr "removed block from"; VInt (Z.of_nat ls);
        VStr "to"; VInt (Z.of_nat e)]].
Proof.
  apply (script_success_on_disk (mkSystem (Some crlf_file) Windows [])
           two_blocks 61 93).
  - vm_compute. reflexivity.
  - vm_compute. lia.
  - vm_compute. reflexivity.
  - vm_compute. reflexivity.
Defined.

(** X13: bytes.  On a platform that writes LF, for a file without the byte
    [0D], a successful run leaves the bytes of the file as they were except
    that one stretch is taken out: the file is [pre ++ mid ++ suf], it becomes
    [pre ++ suf], and [mid] is the UTF-8 form of the span of the text from
    [ls] to [e]. *)
Theorem bytes_outside_span_kept (s : system) (bs : bytes) (text : str)
    (p c : nat) :
  on_disk s = Some bs ->
  platform s = Posix ->
  ~ In Byte.x0d bs ->
  utf8_decode bs = Some text ->
  (2 <= count sub text)%nat ->
  last_occurrence sub text = Some p ->
  next_occurrence closing_tag text p = Some c ->
  exists ls e pre mid suf s',
    script s = (None, s') /\
    is_line_start text p ls /\
    is_line_end text c e /\
    bs = pre ++ mid ++ suf /\
    on_disk s' = Some (pre ++ suf) /\
    utf8_decode pre = Some (firstn ls text) /\
    utf8_decode mid = Some (firstn (e - ls) (skipn ls text)) /\
    utf8_decode suf = Some (skipn e text).
Proof.
  intros Hdisk Hos Hnocr Hdec Hcount Hp Hc.
  pose proof (decode_encode _ _ Hdec) as Henc.
  assert (~ In carriage_return text) as Hcr
    by (intros Hin; apply Hnocr; now apply (encode_cr text bs Henc)).
  assert (Path_read_text s = inr text) as Hread.
  { unfold Path_read_text. rewrite Hdisk, Hdec.
    now rewrite universal_newlines_id. }
  destruct (locate _ _ _ Hp Hc) as (ls & e & L).
  destruct (loc_order _ _ _ _ _ L) as [Ho1 Ho2].
  destruct (script_when_located s text p c ls e Hread Hcount Hp Hc L)
    as [Hs _].
  assert (text = firstn ls text ++ firstn (e - ls) (skipn ls text) ++
                 skipn e text) as Hsplit.
  { replace (skipn e text) with (skipn (e - ls) (skipn ls text))
      by (rewrite skipn_skipn; f_equal; lia).
    now rewrite !firstn_skipn. }
  rewrite Hsplit in Henc.
  apply encode_app_inv in Henc. destruct Henc as (pre & rest & Epre & Er & ->).
  apply encode_app_inv in Er. destruct Er as (mid & suf & Emid & Esuf & ->).
  exists ls, e, pre, mid, suf,
    (system_after (platform s) (stdout s) text ls e).
  split; [exact Hs|].
  split; [exact (loc_line_start _ _ _ _ _ L)|].
  split; [exact (loc_line_end _ _ _ _ _ L)|].
  split; [reflexivity|]. split.
  - unfold system_after. cbn [on_disk]. rewrite Hos, write_newlines_posix.
    unfold remove_span. now rewrite encode_app, Epre, Esuf.
  - repeat split; now apply encode_decode.
Qed.

Lemma bytes_outside_span_kept_witness :
  exists ls e pre mid suf s',
    script (mkSystem (Some lf_file) Posix []) = (None, s') /\
    is_line_start two_blocks 61 ls /\
    is_line_end two_blocks 93 e /\
    lf_file = pre ++ mid ++ suf /\
    on_disk s' = Some (pre ++ suf) /\
    utf8_decode pre = Some (firstn ls two_blocks) /\
    utf8_decode mid = Some (firstn (e - ls) (skipn ls two_blocks)) /\
    utf8_decode suf = Some (skipn e two_blocks).
Proof.
  apply (bytes_outside_span_kept (mkSystem (Some lf_file) Posix []) lf_file
           two_blocks 61 93).
  - reflexivity.
  - reflexivity.
  - vm_compute. intuition discriminate.
  - vm_compute. reflexivity.
  - vm_compute. lia.
  - vm_compute. reflexivity.
  - vm_compute. reflexivity.
Defined.



(** A file with CRLF line ends, run on a platform that writes LF: the run
    succeeds and the bytes it leaves are not the bytes of the file with one
    stretch taken out. *)
Lemma crlf_file_not_cut :
  exists s',
    script (mkSystem (Some crlf_file) Posix []) = (None, s') /\
    exists bs', on_disk s' = Some bs' /\
      forall pre mid suf,
        crlf_file = pre ++ mid ++ suf -> bs' <> pre ++ suf.
Proof.
  eexists. split; [vm_compute; reflexivity|].
  eexists. split; [reflexivity|].
  intros pre mid suf Hsplit Heq.
  pose proof (is_cut_of_complete pre mid suf) as Hcut.
  rewrite <- Hsplit, <- Heq in Hcut. vm_compute in Hcut. discriminate.
Qed.

(** X15: UTF-8 as the script's reads and writes use it.  A byte string
    decodes to a text exactly when the text encodes to that byte string; so
    decoding undoes encoding and encoding undoes decoding, and what has been
    decoded can always be encoded again. *)
Theorem utf8_round_trip (bs : bytes) (t : str) :
  utf8_decode bs = Some t <-> utf8_encode t = Some bs.
Proof. split; [apply decode_encode | apply encode_decode]. Qed.

(** X16: newline translation.  A text read in text mode holds no carriage
    return, reading is idempotent, and a text that was read, written with
    the platform's line separator and read again is the same text. *)
Theorem newlines_round_trip (o : os) (t : str) :
  ~ In carriage_return (universal_newlines t) /\
  universal_newlines (universal_newlines t) = universal_newlines t /\
  universal_newlines (write_newlines (linesep o) (universal_newlines t)) =
    universal_newlines t.
Proof.
  pose proof (universal_newlines_no_cr t) as H.
  split; [exact H|]. split.
  - now apply universal_newlines_id.
  - now apply read_back.
Qed.
